(** * Lumen: verification of the localization-key rewriter

    Shallow embedding of [update_localization_keys.py]: the mapping table
    [key_mappings], the per-file rewriting of [update_file] (a sequence of
    [re.sub] calls, one pair of patterns per table entry, in table order) and
    the directory traversal of [main].

    Text is modelled as the list of the bytes of its UTF-8 encoding.  Python
    matches on code points; every pattern of this program is pure ASCII and
    an ASCII byte occurs in UTF-8 text only as that ASCII code point, so the
    occurrences of a pattern are the same in both views.  A file whose bytes
    do not decode is a file whose read raises. *)

From Stdlib Require Import List Ascii Bool Arith Lia Permutation.
From Stdlib Require String.
Import ListNotations String.StringSyntax.
Local Open Scope string_scope.
Local Open Scope list_scope.

Abbreviation string := String.string.

(** ** Text *)

Definition text := list ascii.

Definition txt (s : string) : text := String.list_ascii_of_string s.

(** The double quote and the apostrophe, the two delimiters of [L(...)]. *)
Definition dq : ascii := "034"%char.
Definition sq : ascii := "039"%char.
Definition bs : ascii := "092"%char.

Fixpoint text_eqb (a b : text) : bool :=
  match a, b with
  | [], [] => true
  | x :: a', y :: b' => Ascii.eqb x y && text_eqb a' b'
  | _, _ => false
  end.

(** ** The Python string primitives the script uses *)

Module Py.

(** [s.startswith(p)] *)
Fixpoint startswith (s p : text) {struct p} : bool :=
  match p with
  | [] => true
  | a :: p' =>
      match s with
      | [] => false
      | c :: s' => Ascii.eqb a c && startswith s' p'
      end
  end.

(** [s.endswith(p)] *)
Definition endswith (s p : text) : bool := startswith (rev s) (rev p).

(** [s.replace(old, new)] for a one-character [old]. *)
Definition replace_char (old : ascii) (new : text) (s : text) : text :=
  flat_map (fun c => if Ascii.eqb c old then new else [c]) s.

(** [os.path.join(a, b)] of posixpath. *)
Definition path_join (a b : text) : text :=
  if startswith b (txt "/") then b
  else match a with
       | [] => b
       | _ => if endswith a (txt "/") then a ++ b else a ++ txt "/" ++ b
       end.

End Py.

(** ** The fragment of [re] the script uses

    Every pattern the script builds is a literal: ordinary characters and
    backslash-escaped punctuation.  Every replacement template it builds has
    backslashes only in front of quote characters. *)

Module Re.

Definition is_special (c : ascii) : bool :=
  existsb (Ascii.eqb c) (txt ".^$*+?{}[]|()" ++ [bs]).

Definition is_alnum (c : ascii) : bool :=
  let n := nat_of_ascii c in
  (Nat.leb 48 n && Nat.leb n 57) || (Nat.leb 65 n && Nat.leb n 90)
  || (Nat.leb 97 n && Nat.leb n 122).

(** The text a pattern matches when the pattern is a literal; [None] when it
    is not one (a special character, a class such as [\d], a dangling
    backslash). *)
Fixpoint literal_of_pattern (pat : text) : option text :=
  match pat with
  | [] => Some []
  | c :: rest =>
      if Ascii.eqb c bs then
        match rest with
        | e :: rest' =>
            if is_alnum e then None
            else option_map (cons e) (literal_of_pattern rest')
        | [] => None
        end
      else if is_special c then None
      else option_map (cons c) (literal_of_pattern rest)
  end.

(** The text a replacement template inserts ([parse_template]): a doubled
    backslash is one backslash, a backslash before a character that is
    neither a letter nor a digit stays with that character, as two
    characters.  [None] for the rest: a named escape such as [\n], a group
    reference, a bad escape, a dangling backslash. *)
Fixpoint expand_template (repl : text) : option text :=
  match repl with
  | [] => Some []
  | c :: rest =>
      if Ascii.eqb c bs then
        match rest with
        | e :: rest' =>
            if Ascii.eqb e bs then option_map (cons bs) (expand_template rest')
            else if is_alnum e then None
            else option_map (fun t => c :: e :: t) (expand_template rest')
        | [] => None
        end
      else option_map (cons c) (expand_template rest)
  end.

(** Left-to-right scan replacing the non-overlapping occurrences of the
    non-empty literal [p] by [r]; [skip] counts the characters of a matched
    occurrence still to be passed over. *)
Fixpoint sub_scan (p r s : text) (skip : nat) : text :=
  match s with
  | [] => []
  | c :: s' =>
      match skip with
      | S k => sub_scan p r s' k
      | O =>
          if Py.startswith s p then r ++ sub_scan p r s' (length p - 1)
          else c :: sub_scan p r s' 0
      end
  end.

(** An empty pattern matches before every character and at the end. *)
Definition sub_literal (p r s : text) : text :=
  match p with
  | [] => r ++ flat_map (fun c => c :: r) s
  | _ :: _ => sub_scan p r s 0
  end.

(** [re.sub(pattern, repl, content)] on this fragment; [None] when the call
    leaves it. *)
Definition sub (pattern repl content : text) : option text :=
  match literal_of_pattern pattern, expand_template repl with
  | Some p, Some r => Some (sub_literal p r content)
  | _, _ => None
  end.

End Re.

(** ** The mapping table

    [key_mappings] is a dict literal; [items()] yields its pairs in the order
    of the literal.  No key occurs twice in it. *)

Definition key_mappings : list (string * string) := [
  (* App Name & Navigation *)
  ("app_name", "Lumen");
  ("settings", "Settings");
  ("done", "Done");
  ("cancel", "Cancel");
  ("ok", "OK");
  ("retry", "Retry");
  ("continue", "Continue");
  ("back", "Back");
  ("next", "Next");
  ("save", "Save");
  ("delete", "Delete");
  ("edit", "Edit");
  ("close", "Close");
  (* Wallet Main Screen *)
  ("send", "Send");
  ("receive", "Receive");
  ("balance", "Balance");
  ("payment_history", "Payment History");
  ("wallet_info", "Wallet Info");
  (* Payment States *)
  ("pending", "Pending");
  ("completed", "Completed");
  ("failed", "Failed");
  ("sent", "Sent");
  ("received", "Received");
  ("created", "Created");
  ("timed_out", "Timed Out");
  ("refundable", "Refundable");
  ("refund_pending", "Refund Pending");
  ("waiting_fee_acceptance", "Waiting Fee Acceptance");
  (* Send Payment *)
  ("send_payment", "Send Payment");
  ("paste_invoice", "Paste Invoice");
  ("scan_qr", "Scan QR");
  ("amount", "Amount");
  ("description", "Description");
  ("prepare_payment", "Prepare Payment");
  ("send_now", "Send Now");
  ("payment_details", "Payment Details");
  ("fee_details", "Fee Details");
  (* Receive Payment *)
  ("receive_payment", "Receive Payment");
  ("create_invoice", "Create invoice");
  ("invoice_created", "Invoice Created");
  ("you_receive", "You receive");
  ("service_fee", "Service fee");
  ("copy_invoice", "Copy Invoice");
  ("share_invoice", "Share Invoice");
  (* Payment History *)
  ("filter", "Filter");
  ("all_payments", "All");
  ("sent_payments", "Sent");
  ("received_payments", "Received");
  ("pending_payments", "Pending");
  ("completed_payments", "Completed");
  ("failed_payments", "Failed");
  (* Refunds *)
  ("get_money_back", "Get Money Back");
  ("money_to_get_back", "Money to Get Back");
  ("payment_failed", "Payment Failed");
  ("get_your_money_back", "Get Your Money Back");
  ("money_sent_successfully", "Money Sent Successfully! ðŸŽ‰");
  ("great", "Great!");
  ("refund_success_message", "Your money has been sent back to your Bitcoin wallet. It should arrive within the selected timeframe.");
  ("refund_explanation", "These payments didn't go through. Tap 'Get Money Back' to return the funds to your Bitcoin wallet.");
  (* Settings *)
  ("currency", "Currency");
  ("language", "Language");
  ("security", "Security");
  ("about", "About");
  ("logout", "Logout");
  ("delete_wallet", "Delete Wallet");
  ("export_seed", "Export Seed Phrase");
  ("import_wallet", "Import Wallet");
  ("search_currencies", "Search currencies...");
  ("loading_currencies", "Loading currencies...");
  (* Onboarding *)
  ("welcome_to_lumen", "Welcome to Lumen!");
  ("your_wallet_is_ready", "Your Lightning wallet is ready to use");
  ("start_using_lumen", "Start Using Lumen");
  ("create_new_wallet", "Create New Wallet");
  ("import_existing_wallet", "Import Existing Wallet");
  ("wallet_choice_title", "Choose Wallet Option");
  ("wallet_choice_subtitle", "Create a new wallet or import an existing one");
  (* Connection Status *)
  ("connected", "Connected");
  ("disconnected", "Disconnected");
  ("connecting", "Connecting...");
  ("connection_status", "Connection Status");
  (* Wallet Info *)
  ("balance_details", "Balance Details");
  ("total_balance", "Total Balance");
  ("pending_receive", "Pending Receive");
  ("pending_send", "Pending Send");
  ("payment_limits", "Payment Limits");
  ("loading_limits", "Loading limits...");
  ("error_loading_limits", "Error loading limits");
  ("no_limits_loaded", "No limits loaded");
  ("send_range", "Send Range");
  ("receive_range", "Receive Range");
  ("liquid_tip", "Liquid Tip");
  (* Bitcoin Places *)
  ("find_bitcoin_places", "Find Bitcoin places near you");
  ("getting_location", "Getting your location...");
  ("no_places_nearby", "No Bitcoin places found nearby");
  ("places_near_you", "%d place%@ to spend bitcoin near you");
  ("location_required", "Location Required");
  ("find_bitcoin_places_title", "Find Bitcoin Places Near You");
  ("location_permission_message", "We use your location to show nearby businesses that accept Bitcoin payments. Your location stays private and is never shared with third parties.");
  ("enable_location", "Enable Location");
  ("open_settings", "Open Settings");
  (* Fee Comparison *)
  ("lightning_network", "Lightning Network");
  ("credit_card_fee", "Credit Card (3%)");
  ("bank_wire_fee", "Bank Wire ($25)");
  ("recommended", "RECOMMENDED");
  (* Error Messages *)
  ("insufficient_funds", "Insufficient funds. You don't have enough sats for this payment.");
  ("payment_expired", "This payment request has expired. Please request a new invoice.");
  ("invalid_payment", "Invalid payment request. Please check the QR code or invoice.");
  ("network_error", "Network error. Please check your internet connection and try again.");
  ("channel_issue", "Lightning channel issue. Please try again in a moment.");
  ("invalid_invoice", "Invalid Lightning invoice. Please check the payment request.");
  ("invalid_amount", "Invalid amount");
  ("payment_request_expired", "This payment request has expired");
  (* Action Buttons *)
  ("try_again", "Try Again");
  ("open_settings_button", "Open Settings");
  ("got_it", "Got It");
  (* Loading States *)
  ("loading", "Loading...");
  ("processing", "Processing...");
  ("please_wait_processing", "Please wait...");
  (* Default Values *)
  ("lumen_payment", "Lumen payment");
  ("default_description", "Lightning payment");
  (* Units *)
  ("sats", "sats");
  ("bitcoin", "Bitcoin");
  ("words", "words");
  ("word", "word");
  (* Time *)
  ("now", "now");
  ("minutes_ago", "%d minutes ago");
  ("hours_ago", "%d hours ago");
  ("days_ago", "%d days ago");
  (* Import Seed *)
  ("enter_recovery_phrase", "Enter your %d-word recovery phrase");
  ("word_count", "Word Count:");
  ("select_word_count", "Select Word Count");
  ("word_count_question", "How many words does your seed phrase have?");
  ("paste_seed_phrase", "Paste Seed Phrase");
  ("paste_confirmation", "Found %d words in clipboard. Paste them into the form?");
  ("import_wallet_button", "Import Wallet");
  ("importing_wallet", "Importing Wallet...");
  (* Pluralization *)
  ("place_singular", String.EmptyString);
  ("place_plural", "s")
].

(** ** The rewriting of one file's content ([update_file], the loop) *)

(** [new_key.replace('"', '\\"').replace("'", "\\'")] *)
Definition escape (new_key : text) : text :=
  Py.replace_char sq [bs; sq] (Py.replace_char dq [bs; dq] new_key).

(** [f'L\\("{old_key}"\\)'] *)
Definition pattern1 (old_key : text) : text :=
  txt "L\(" ++ dq :: old_key ++ dq :: txt "\)".

(** [f"L\\('{old_key}'\\)"] *)
Definition pattern2 (old_key : text) : text :=
  txt "L\('" ++ old_key ++ txt "'\)".

(** [f'L("{escaped_new_key}")'] *)
Definition replacement (escaped_new_key : text) : text :=
  txt "L(" ++ dq :: escaped_new_key ++ dq :: txt ")".

(** One iteration of the loop over [key_mappings.items()]. *)
Definition rewrite_pair (content : text) (kv : string * string) : option text :=
  let old_key := txt (fst kv) in
  let new_key := txt (snd kv) in
  let escaped_new_key := escape new_key in
  match Re.sub (pattern1 old_key) (replacement escaped_new_key) content with
  | Some content1 => Re.sub (pattern2 old_key) (replacement escaped_new_key) content1
  | None => None
  end.

(** The whole loop: every pair, in table order. *)
Definition update_content (content : text) : option text :=
  fold_left (fun acc kv => match acc with
                           | Some c => rewrite_pair c kv
                           | None => None
                           end) key_mappings (Some content).

(** ** Files, console and exceptions

    A file is what the two [open] calls of [update_file] do on it.  Reading
    yields the decoded content or raises.  Writing succeeds or raises, and
    it can raise at two places: [open(filepath, 'w')] itself raises, and the
    file is left as it was; or the file is opened, which empties it, and
    [f.write] or the closing of the file raises, which leaves a prefix of
    the new content in the file. *)

(** How a write fails.  [WriteBroken msg kept undecodable later]: the file
    keeps the first [kept] characters of the content being written; a later
    read yields them, or raises with [undecodable] when what was kept does
    not decode; [later] is how a later write of that file fails, if it
    does. *)
#[local] Set Warnings "-register-all".
Inductive write_failure :=
| OpenRefused (msg : text)
| WriteBroken (msg : text) (kept : nat) (undecodable : option text)
              (later : option write_failure).

Record file := {
  f_read : text + text;
  f_write : option write_failure
}.

Definition failure_message (w : write_failure) : text :=
  match w with
  | OpenRefused msg => msg
  | WriteBroken msg _ _ _ => msg
  end.

(** The file a broken write of [content] leaves. *)
Definition broken_file (content : text) (kept : nat)
           (undecodable : option text) (later : option write_failure) : file :=
  {| f_read := match undecodable with
               | Some d => inr d
               | None => inl (firstn kept content)
               end;
     f_write := later |}.

Definition filesystem := text -> file.

Definition fs_set (path : text) (f : file) (m : filesystem) : filesystem :=
  fun q => if text_eqb q path then f else m q.

Inductive event :=
| OpenRead (path : text)
| OpenWrite (path : text)
| Printed (line : text).

Record state := { fs : filesystem; trace : list event }.

(** Computations that change the state and may raise: [inr e] is an
    exception with message [e]. *)
Definition M (A : Type) := state -> state * (A + text).

Definition ret {A} (a : A) : M A := fun st => (st, inl a).

Definition raise {A} (e : text) : M A := fun st => (st, inr e).

Definition bind {A B} (m : M A) (k : A -> M B) : M B :=
  fun st => match m st with
            | (st', inl a) => k a st'
            | (st', inr e) => (st', inr e)
            end.

Notation "x <- m ;; k" := (bind m (fun x => k))
  (at level 61, m at next level, right associativity).
Notation "m ;; k" := (bind m (fun _ => k))
  (at level 61, right associativity).

Definition emit (e : event) : M unit :=
  fun st => ({| fs := fs st; trace := trace st ++ [e] |}, inl tt).

(** [with open(filepath, 'r', encoding='utf-8') as f: content = f.read()] *)
Definition read_text (path : text) : M text :=
  emit (OpenRead path) ;; fun st => (st, f_read (fs st path)).

(** [with open(filepath, 'w', encoding='utf-8') as f: f.write(content)] *)
Definition write_text (path content : text) : M unit :=
  emit (OpenWrite path) ;;
  fun st => match f_write (fs st path) with
            | Some (OpenRefused e) => (st, inr e)
            | Some (WriteBroken e kept undecodable later) =>
                ({| fs := fs_set path
                            (broken_file content kept undecodable later)
                            (fs st);
                    trace := trace st |}, inr e)
            | None =>
                ({| fs := fs_set path {| f_read := inl content; f_write := None |} (fs st);
                    trace := trace st |}, inl tt)
            end.

Definition print (line : text) : M unit := emit (Printed line).

(** The substitution loop inside the [try]; a call that leaves the modelled
    fragment of [re] is an exception (no pair of the table does, see
    [update_content_total]). *)
Definition substitute (content : text) : M text :=
  match update_content content return M text with
  | Some c => ret c
  | None => raise (txt "re.error")
  end.

(** The body of the [try] block of [update_file]. *)
Definition update_file_try (filepath : text) : M unit :=
  original_content <- read_text filepath ;;
  content <- substitute original_content ;;
  if negb (text_eqb content original_content) then
    write_text filepath content ;;
    print (txt "Updated: " ++ filepath)
  else ret tt.

(** [update_file]: the [try] block and its [except Exception as e]. *)
Definition update_file (filepath : text) (st : state) : state :=
  match update_file_try filepath st with
  | (st', inl _) => st'
  | (st', inr e) =>
      fst (print (txt "Error updating " ++ filepath ++ txt ": " ++ e) st')
  end.

(** ** The traversal ([main]) *)

Definition lumen_dir : text := txt "Lumen".

(** A directory: the names of its files and its sub-directories. *)
#[local] Set Warnings "-register-all".
Inductive tree := Dir (files : list text) (subdirs : list (text * tree)).

(** [os.walk(top)], top-down: one triple [(root, dirs, files)] per
    directory. *)
Fixpoint os_walk (top : text) (t : tree) : list (text * list text * list text) :=
  match t with
  | Dir files subdirs =>
      (top, map fst subdirs, files)
      :: flat_map (fun d => os_walk (Py.path_join top (fst d)) (snd d)) subdirs
  end.

(** [for file in files: if file.endswith('.swift'): update_file(join(root, file))] *)
Definition visit_files (root : text) (files : list text) (st : state) : state :=
  fold_left (fun st file =>
               if Py.endswith file (txt ".swift")
               then update_file (Py.path_join root file) st
               else st) files st.

(** [for root, dirs, files in os.walk(lumen_dir): ...] *)
Definition run_walk (w : list (text * list text * list text)) (st : state) : state :=
  fold_left (fun st entry => visit_files (fst (fst entry)) (snd entry) st) w st.

Definition main (t : tree) (st : state) : state :=
  run_walk (os_walk lumen_dir t) st.

(** ** Chunks

    Every pattern and every replacement of the script starts with [L(], and
    has no other [L(] inside.  A content therefore splits, at its
    occurrences of [L(], into a head and a list of chunk bodies, and each
    [re.sub] of the script acts on every chunk body on its own. *)

Definition LP : text := txt "L(".

(** No occurrence of [L(]. *)
Fixpoint lp_free (s : text) : bool :=
  match s with
  | [] => true
  | a :: s' =>
      match s' with
      | b :: _ => negb (Ascii.eqb a "L" && Ascii.eqb b "(") && lp_free s'
      | [] => true
      end
  end.

Definition has_L (s : text) : bool := existsb (Ascii.eqb "L"%char) s.

Fixpoint ends_L (s : text) : bool :=
  match s with
  | [] => false
  | c :: s' =>
      match s' with
      | [] => Ascii.eqb c "L"
      | _ :: _ => ends_L s'
      end
  end.

(** The text is empty or starts a chunk. *)
Definition chunk_start (rest : text) : bool :=
  match rest with
  | [] => true
  | c :: _ => Ascii.eqb c "L"
  end.

Definition starts_paren (s : text) : bool :=
  match s with
  | [] => false
  | x :: _ => Ascii.eqb x "("
  end.

(** [join g bodies] is [g L( b1 L( b2 ...]. *)
Definition join (g : text) (bodies : list text) : text :=
  g ++ flat_map (fun b => LP ++ b) bodies.

(** What one substitution does to a chunk body: [q] is the pattern and [t]
    the replacement, both without their leading [L(]. *)
Definition chunk_sub (q t b : text) : text :=
  if Py.startswith b q then t ++ skipn (length q) b else b.

(** A pass is such a pair [(q, t)]. *)
Definition pass := (text * text)%type.

Definition run_pass (c : text) (p : pass) : text :=
  Re.sub_scan (LP ++ fst p) (LP ++ snd p) c 0.

Definition run_passes (ps : list pass) (c : text) : text :=
  fold_left run_pass ps c.

Definition chunk_pass (b : text) (p : pass) : text :=
  chunk_sub (fst p) (snd p) b.

Definition chunk_passes (ps : list pass) (b : text) : text :=
  fold_left chunk_pass ps b.

Definition good_pass (p : pass) : bool :=
  negb (has_L (fst p)) && lp_free (snd p) && negb (ends_L (snd p)).

(** Two texts differ at a position both have. *)
Fixpoint clash (q t : text) : bool :=
  match q, t with
  | a :: q', b :: t' => negb (Ascii.eqb a b) || clash q' t'
  | _, _ => false
  end.

(** Pass [pj] leaves every text that starts with [t] as it is. *)
Definition stable_on (t : text) (pj : pass) : bool :=
  clash (fst pj) t
  || (Py.startswith t (fst pj)
      && text_eqb (snd pj ++ skipn (length (fst pj)) t) t).

(** Pass [pj] either cannot match a text that starts with [fst pk], or turns
    it into the same text with [snd pk] in place of [fst pk]. *)
Definition fires_as (pk pj : pass) : bool :=
  clash (fst pj) (fst pk)
  || (Py.startswith (fst pk) (fst pj)
      && text_eqb (snd pj ++ skipn (length (fst pj)) (fst pk)) (snd pk)).

Definition stable_table (ps : list pass) : bool :=
  forallb (fun pi => forallb (stable_on (snd pi)) ps) ps.

Definition firing_table (ps : list pass) : bool :=
  forallb (fun pk => forallb (fires_as pk) ps) ps.

(** The two passes of one table pair, without the leading [L(]. *)
Definition quoted (q : ascii) (k : text) : text := q :: k ++ [q; ")"%char].

Definition passes_of_pair (kv : string * string) : list pass :=
  let t := quoted dq (escape (txt (snd kv))) in
  [(quoted dq (txt (fst kv)), t); (quoted sq (txt (fst kv)), t)].

Definition passes : list pass := flat_map passes_of_pair key_mappings.

(** The keys of the table, as texts. *)
Definition keys : list text := map (fun kv => txt (fst kv)) key_mappings.

(** The call [L("k")] or [L('k')] as it stands in a file. *)
Definition call (q : ascii) (k : text) : text := LP ++ quoted q k.

(** [p] occurs in [s]. *)
Definition occurs (p s : text) : Prop := exists pre post, s = pre ++ p ++ post.

(** The pair compiles to the literal patterns and the replacement expected. *)
Definition pair_compiles (kv : string * string) : bool :=
  let k := txt (fst kv) in
  let e := escape (txt (snd kv)) in
  match Re.literal_of_pattern (pattern1 k), Re.literal_of_pattern (pattern2 k),
        Re.expand_template (replacement e) with
  | Some p1, Some p2, Some r =>
      text_eqb p1 (call dq k) && text_eqb p2 (call sq k) && text_eqb r (call dq e)
  | _, _, _ => false
  end.

Definition key_ok (kv : string * string) : bool :=
  let k := txt (fst kv) in
  negb (existsb (Ascii.eqb dq) k) && negb (existsb (Ascii.eqb sq) k).

Fixpoint nodup_keys (ks : list text) : bool :=
  match ks with
  | [] => true
  | k :: ks' => negb (existsb (text_eqb k) ks') && nodup_keys ks'
  end.

(** Every quote character is the second character of a backslash escape. *)
Fixpoint quotes_escaped (s : text) : bool :=
  match s with
  | [] => true
  | c :: s' =>
      if Ascii.eqb c bs then
        match s' with
        | _ :: s'' => quotes_escaped s''
        | [] => false
        end
      else negb (Ascii.eqb c dq || Ascii.eqb c sq) && quotes_escaped s'
  end.

(** Every quote character has a backslash right before it. *)
Fixpoint quotes_preceded (prev : ascii) (s : text) : bool :=
  match s with
  | [] => true
  | c :: s' =>
      (negb (Ascii.eqb c dq || Ascii.eqb c sq) || Ascii.eqb prev bs)
      && quotes_preceded c s'
  end.

(** ** What a run does to one file, as a function of the file alone *)

Definition step_file (f : file) : file :=
  match f_read f return file with
  | inl c =>
      match update_content c return file with
      | Some c' =>
          if negb (text_eqb c' c) then
            match f_write f with
            | None => {| f_read := inl c'; f_write := None |}
            | Some (OpenRefused _) => f
            | Some (WriteBroken _ kept undecodable later) =>
                broken_file c' kept undecodable later
            end
          else f
      | None => f
      end
  | inr _ => f
  end.

Definition is_swift (file : text) : bool := Py.endswith file (txt ".swift").

(** The paths [update_file] is called on, in call order. *)
Definition targets (w : list (text * list text * list text)) : list text :=
  flat_map (fun entry => map (Py.path_join (fst (fst entry)))
                             (filter is_swift (snd entry))) w.

Definition run_paths (ps : list text) (st : state) : state :=
  fold_left (fun st p => update_file p st) ps st.

Definition error_line (path e : text) : text :=
  txt "Error updating " ++ path ++ txt ": " ++ e.

Definition updated_line (path : text) : text := txt "Updated: " ++ path.

(** The message of the exception processing the file raises, if it does. *)
Definition raises (f : file) : option text :=
  match f_read f return option text with
  | inr e => Some e
  | inl c =>
      match update_content c return option text with
      | Some c' =>
          if negb (text_eqb c' c) then option_map failure_message (f_write f)
          else None
      | None => Some (txt "re.error")
      end
  end.

(** [update_file] spelled out: the new file system and the events added. *)
Definition process (path : text) (m : filesystem) : filesystem * list event :=
  match f_read (m path) return filesystem * list event with
  | inr e => (m, [OpenRead path; Printed (error_line path e)])
  | inl c =>
      match update_content c return filesystem * list event with
      | None => (m, [OpenRead path; Printed (error_line path (txt "re.error"))])
      | Some c' =>
          if negb (text_eqb c' c) then
            match f_write (m path) with
            | Some (OpenRefused e) =>
                (m, [OpenRead path; OpenWrite path; Printed (error_line path e)])
            | Some (WriteBroken e kept undecodable later) =>
                (fs_set path (broken_file c' kept undecodable later) m,
                 [OpenRead path; OpenWrite path; Printed (error_line path e)])
            | None =>
                (fs_set path {| f_read := inl c'; f_write := None |} m,
                 [OpenRead path; OpenWrite path; Printed (updated_line path)])
            end
          else (m, [OpenRead path])
      end
  end.

Fixpoint process_all (ps : list text) (m : filesystem) : filesystem * list event :=
  match ps with
  | [] => (m, [])
  | p :: ps' =>
      let r := process p m in
      let r' := process_all ps' (fst r) in
      (fst r', snd r ++ snd r')
  end.

Definition mem (q : text) (ps : list text) : bool := existsb (text_eqb q) ps.

(** The path an event is about. *)
Definition event_path (e : event) : option text :=
  match e with
  | OpenRead p => Some p
  | OpenWrite p => Some p
  | Printed _ => None
  end.

(** ** A small tree, on which the statements below are instantiated *)

Definition example_fs : filesystem :=
  fun p =>
    if text_eqb p (txt "Lumen/A.swift") then
      {| f_read := inl (txt "Text(" ++ call sq (txt "ok") ++ txt ")");
         f_write := None |}
    else if text_eqb p (txt "Lumen/Views/B.swift") then
      {| f_read := inl (call dq (txt "sent")); f_write := None |}
    else {| f_read := inr (txt "Permission denied"); f_write := None |}.

Definition example_state : state := {| fs := example_fs; trace := [] |}.

Definition example_walk : list (text * list text * list text) :=
  [(txt "Lumen", [txt "Views"], [txt "A.swift"; txt "notes.txt"]);
   (txt "Lumen/Views", [], [txt "B.swift"])].

Definition example_walk_locked : list (text * list text * list text) :=
  [(txt "Lumen", [txt "Views"],
    [txt "A.swift"; txt "Locked.swift"; txt "notes.txt"]);
   (txt "Lumen/Views", [], [txt "B.swift"])].

(** ** Further notions: the loop over any table, calls, events, names *)

(** The loop of [update_file] over the pairs of an arbitrary table, in the
    order given; [update_content] is this loop over [key_mappings]. *)
Definition rewrite_all (table : list (string * string)) (content : text)
  : option text :=
  fold_left (fun acc kv => match acc with
                           | Some c => rewrite_pair c kv
                           | None => None
                           end) table (Some content).

(** A key without any character that is special in a regular expression. *)
Definition ordinary (k : text) : bool :=
  forallb (fun c => negb (Re.is_special c)) k.

(** Number of occurrences of [L(]. *)
Fixpoint count_lp (s : text) : nat :=
  match s with
  | [] => 0
  | a :: s' =>
      match s' with
      | b :: _ =>
          (if Ascii.eqb a "L" && Ascii.eqb b "(" then 1 else 0) + count_lp s'
      | [] => 0
      end
  end.

(** The text before the first [L(]. *)
Fixpoint head_text (s : text) : text :=
  match s with
  | [] => []
  | a :: s' =>
      if Ascii.eqb a "L" && starts_paren s' then [] else a :: head_text s'
  end.

(** The paths opened for reading, the paths opened for writing and the
    lines printed, in order. *)
Definition reads (tr : list event) : list text :=
  flat_map (fun e => match e with OpenRead p => [p] | _ => [] end) tr.

Definition writes (tr : list event) : list text :=
  flat_map (fun e => match e with OpenWrite p => [p] | _ => [] end) tr.

Definition printed (tr : list event) : list text :=
  flat_map (fun e => match e with Printed l => [l] | _ => [] end) tr.

(** A name, as a directory listing gives it, is not an absolute path. *)
Definition plain_name (n : text) : bool := negb (Py.startswith n (txt "/")).

Fixpoint names_ok (t : tree) : bool :=
  match t with
  | Dir files subdirs =>
      forallb plain_name files
      && forallb (fun d => plain_name (fst d) && names_ok (snd d)) subdirs
  end.

Definition example_tree : tree :=
  Dir [txt "A.swift"; txt "notes.txt"]
      [(txt "Views", Dir [txt "B.swift"] [])].

(** A tree in which the disk fills up while [Lumen/A.swift] is written:
    ten characters of the new content are kept. *)
Definition example_fs_full : filesystem :=
  fun p =>
    if text_eqb p (txt "Lumen/A.swift") then
      {| f_read := inl (txt "Text(" ++ call sq (txt "ok") ++ txt ")");
         f_write := Some (WriteBroken (txt "No space left on device") 10
                                      None None) |}
    else example_fs p.

(** * Proofs *)

(** ** Text equality and prefixes *)

Lemma text_eqb_refl (a : text) : text_eqb a a = true.
Proof.
  induction a as [|x a IH]; simpl; [reflexivity|].
  now rewrite Ascii.eqb_refl, IH.
Qed.

Lemma text_eqb_eq (a b : text) : text_eqb a b = true <-> a = b.
Proof.
  split.
  - revert b; induction a as [|x a IH]; intros [|y b] H; simpl in H;
      try discriminate; [reflexivity|].
    apply andb_true_iff in H as [Hxy Hab].
    apply Ascii.eqb_eq in Hxy. apply IH in Hab. now subst.
  - intros ->. apply text_eqb_refl.
Qed.

Lemma text_eqb_neq (a b : text) : text_eqb a b = false <-> a <> b.
Proof.
  split.
  - intros H E. apply text_eqb_eq in E. congruence.
  - intros H. destruct (text_eqb a b) eqn:E; [|reflexivity].
    apply text_eqb_eq in E. contradiction.
Qed.

Lemma startswith_self_app (p x : text) : Py.startswith (p ++ x) p = true.
Proof.
  induction p as [|a p IH]; simpl; [reflexivity|].
  now rewrite Ascii.eqb_refl, IH.
Qed.

Lemma startswith_split (s p : text) :
  Py.startswith s p = true -> s = p ++ skipn (length p) s.
Proof.
  revert s; induction p as [|a p IH]; intros s H; simpl in *; [reflexivity|].
  destruct s as [|c s]; [discriminate|].
  apply andb_true_iff in H as [Hac Hs].
  apply Ascii.eqb_eq in Hac. subst c. f_equal. now apply IH.
Qed.

Lemma startswith_iff (s p : text) :
  Py.startswith s p = true <-> exists x, s = p ++ x.
Proof.
  split.
  - intros H. eexists. now apply startswith_split.
  - intros [x Hx]. rewrite Hx. apply startswith_self_app.
Qed.

Lemma skipn_self_app (p x : text) : skipn (length p) (p ++ x) = x.
Proof. induction p as [|a p IH]; simpl; auto. Qed.

Lemma clash_startswith (q t x : text) :
  clash q t = true -> Py.startswith (t ++ x) q = false.
Proof.
  revert t; induction q as [|a q IH]; intros [|b t] H; simpl in *;
    try discriminate.
  apply orb_true_iff in H as [H|H].
  - apply negb_true_iff in H. now rewrite H.
  - rewrite (IH _ H). apply andb_false_r.
Qed.

(** A prefix that has no [L] cannot reach into the next chunk. *)
Lemma startswith_chunk (q b rest : text) :
  has_L q = false -> chunk_start rest = true ->
  Py.startswith (b ++ rest) q = Py.startswith b q.
Proof.
  unfold has_L.
  revert q; induction b as [|c b IH]; intros [|a q] HL Hr;
    cbn [Py.startswith app existsb] in *; try reflexivity.
  - apply orb_false_iff in HL as [Ha _].
    destruct rest as [|x rest]; [reflexivity|]. cbn [chunk_start] in Hr.
    apply Ascii.eqb_eq in Hr. subst x.
    rewrite Ascii.eqb_sym, Ha. reflexivity.
  - apply orb_false_iff in HL as [_ HL]. now rewrite IH.
Qed.

(** ** Texts without [L(] *)

Lemma lp_free_unfold (c x : ascii) (s : text) :
  lp_free (c :: x :: s)
  = negb (Ascii.eqb c "L" && Ascii.eqb x "(") && lp_free (x :: s).
Proof. reflexivity. Qed.

Lemma lp_free_tail (c : ascii) (s : text) :
  lp_free (c :: s) = true -> lp_free s = true.
Proof.
  destruct s as [|x s]; [reflexivity|]. rewrite lp_free_unfold.
  intros H. now apply andb_true_iff in H as [_ H].
Qed.

Lemma lp_free_skipn (n : nat) (s : text) :
  lp_free s = true -> lp_free (skipn n s) = true.
Proof.
  revert s; induction n as [|n IH]; intros [|c s] H; cbn [skipn]; auto.
  apply IH. now apply lp_free_tail in H.
Qed.

Lemma lp_free_cons (c : ascii) (s : text) :
  lp_free s = true ->
  Ascii.eqb c "L" = false \/ starts_paren s = false ->
  lp_free (c :: s) = true.
Proof.
  intros Hs Hc. destruct s as [|x s]; [reflexivity|].
  rewrite lp_free_unfold, Hs, andb_true_r. apply negb_true_iff.
  destruct Hc as [Hc|Hc].
  - now rewrite Hc.
  - cbn [starts_paren] in Hc. rewrite Hc. apply andb_false_r.
Qed.

Lemma ends_L_cons (c x : ascii) (s : text) :
  ends_L (c :: x :: s) = ends_L (x :: s).
Proof. reflexivity. Qed.

Lemma lp_free_app (a b : text) :
  lp_free a = true -> lp_free b = true ->
  ends_L a = false \/ starts_paren b = false ->
  lp_free (a ++ b) = true.
Proof.
  induction a as [|c a IH]; intros Ha Hb Hj; [assumption|].
  destruct a as [|c' a].
  - apply lp_free_cons; [assumption|].
    destruct Hj as [Hj|Hj]; [left|right]; assumption.
  - rewrite ends_L_cons in Hj.
    assert (IH' : lp_free ((c' :: a) ++ b) = true).
    { apply IH; [now apply lp_free_tail in Ha|assumption|assumption]. }
    rewrite lp_free_unfold in Ha. apply andb_true_iff in Ha as [Hcc _].
    change ((c :: c' :: a) ++ b) with (c :: c' :: a ++ b).
    rewrite lp_free_unfold, Hcc. exact IH'.
Qed.

(** ** One substitution, chunk by chunk *)

Lemma sub_scan_skip (p r s : text) (n : nat) :
  Re.sub_scan p r s n = Re.sub_scan p r (skipn n s) 0.
Proof.
  revert n; induction s as [|c s IH]; intros [|n]; try reflexivity.
  cbn [Re.sub_scan skipn]. apply IH.
Qed.

Lemma sub_scan_cons (p r : text) (c : ascii) (s : text) :
  Re.sub_scan p r (c :: s) 0
  = if Py.startswith (c :: s) p
    then r ++ Re.sub_scan p r s (length p - 1)
    else c :: Re.sub_scan p r s 0.
Proof. reflexivity. Qed.

Lemma startswith_LP (q : text) (c : ascii) (s : text) :
  Py.startswith (c :: s) (LP ++ q)
  = Ascii.eqb c "L" && starts_paren s && Py.startswith (tl s) q.
Proof.
  unfold LP, txt. cbn [String.list_ascii_of_string app Py.startswith].
  rewrite (Ascii.eqb_sym "L" c).
  destruct s as [|x s]; cbn [starts_paren tl].
  - now rewrite andb_false_r.
  - now rewrite (Ascii.eqb_sym "(" x), andb_assoc.
Qed.

Lemma sub_gap (q r g rest : text) :
  lp_free g = true -> chunk_start rest = true ->
  Re.sub_scan (LP ++ q) r (g ++ rest) 0 = g ++ Re.sub_scan (LP ++ q) r rest 0.
Proof.
  intros Hg Hr. induction g as [|c g IH]; [reflexivity|].
  cbn [app]. rewrite sub_scan_cons, startswith_LP.
  assert (E : Ascii.eqb c "L" && starts_paren (g ++ rest) = false).
  { destruct (Ascii.eqb c "L") eqn:Ec; [|reflexivity]. cbn [andb].
    destruct g as [|x g].
    - destruct rest as [|y rest]; [reflexivity|].
      cbn [chunk_start] in Hr. apply Ascii.eqb_eq in Hr. subst y.
      reflexivity.
    - rewrite lp_free_unfold, Ec in Hg. cbn [andb] in Hg.
      apply andb_true_iff in Hg as [Hx _]. apply negb_true_iff in Hx.
      exact Hx. }
  rewrite E. cbn [andb]. f_equal. apply IH. now apply lp_free_tail in Hg.
Qed.

Lemma skipn_startswith_app (s p x : text) :
  Py.startswith s p = true ->
  skipn (length p) (s ++ x) = skipn (length p) s ++ x.
Proof.
  intros H. apply startswith_split in H.
  rewrite H at 1. rewrite <- app_assoc. now rewrite skipn_self_app.
Qed.

Lemma sub_chunk (q t b rest : text) :
  has_L q = false -> lp_free b = true -> chunk_start rest = true ->
  Re.sub_scan (LP ++ q) (LP ++ t) (LP ++ b ++ rest) 0
  = LP ++ chunk_sub q t b ++ Re.sub_scan (LP ++ q) (LP ++ t) rest 0.
Proof.
  intros Hq Hb Hr. unfold chunk_sub.
  change (LP ++ b ++ rest) with ("L"%char :: "("%char :: b ++ rest).
  rewrite sub_scan_cons, startswith_LP. cbn [starts_paren tl].
  rewrite !Ascii.eqb_refl. cbn [andb].
  rewrite (startswith_chunk q b rest Hq Hr).
  destruct (Py.startswith b q) eqn:E.
  - rewrite sub_scan_skip.
    replace (length (LP ++ q) - 1) with (S (length q))
      by (unfold LP, txt; cbn [String.list_ascii_of_string app length]; lia).
    cbn [skipn]. rewrite (skipn_startswith_app b q rest E).
    rewrite sub_gap by (try apply lp_free_skipn; assumption).
    now rewrite <- !app_assoc.
  - change ("("%char :: b ++ rest) with (("("%char :: b) ++ rest).
    rewrite sub_gap; [reflexivity| |assumption].
    apply lp_free_cons; [assumption|now left].
Qed.

Lemma chunk_start_chunks (bodies : list text) :
  chunk_start (flat_map (fun b => LP ++ b) bodies) = true.
Proof. destruct bodies; reflexivity. Qed.

Lemma run_pass_join (p : pass) (g : text) (bodies : list text) :
  has_L (fst p) = false -> lp_free g = true ->
  Forall (fun b => lp_free b = true) bodies ->
  run_pass (join g bodies) p = join g (map (fun b => chunk_pass b p) bodies).
Proof.
  intros Hq Hg Hb. unfold run_pass, join.
  rewrite sub_gap by (try apply chunk_start_chunks; assumption).
  f_equal. induction Hb as [|b bs Hb _ IH]; [reflexivity|].
  cbn [flat_map map]. rewrite <- !app_assoc.
  rewrite sub_chunk by (try apply chunk_start_chunks; assumption).
  unfold chunk_pass at 1. now rewrite IH.
Qed.

Lemma good_pass_iff (p : pass) :
  good_pass p = true <->
  has_L (fst p) = false /\ lp_free (snd p) = true /\ ends_L (snd p) = false.
Proof.
  unfold good_pass. rewrite !andb_true_iff, !negb_true_iff. tauto.
Qed.

Lemma chunk_pass_lp_free (p : pass) (b : text) :
  good_pass p = true -> lp_free b = true -> lp_free (chunk_pass b p) = true.
Proof.
  intros Hp Hb. apply good_pass_iff in Hp as (_ & Ht & He).
  unfold chunk_pass, chunk_sub. destruct (Py.startswith b (fst p)); [|assumption].
  apply lp_free_app; [assumption|now apply lp_free_skipn|now left].
Qed.

Lemma run_passes_join (ps : list pass) (g : text) (bodies : list text) :
  forallb good_pass ps = true -> lp_free g = true ->
  Forall (fun b => lp_free b = true) bodies ->
  run_passes ps (join g bodies) = join g (map (chunk_passes ps) bodies).
Proof.
  intros Hps Hg. revert bodies.
  induction ps as [|p ps IH]; intros bodies Hb.
  - unfold run_passes, chunk_passes. cbn [fold_left]. now rewrite map_id.
  - cbn [forallb] in Hps. apply andb_true_iff in Hps as [Hp Hps].
    unfold run_passes, chunk_passes in *. cbn [fold_left].
    rewrite run_pass_join; [|now apply good_pass_iff in Hp|assumption|assumption].
    rewrite (IH Hps), map_map; [reflexivity|].
    apply Forall_map. revert Hb. apply Forall_impl.
    intros b. now apply chunk_pass_lp_free.
Qed.

Lemma chunk_passes_lp_free (ps : list pass) (b : text) :
  forallb good_pass ps = true -> lp_free b = true ->
  lp_free (chunk_passes ps b) = true.
Proof.
  revert b; induction ps as [|p ps IH]; intros b Hps Hb; [assumption|].
  cbn [forallb] in Hps. apply andb_true_iff in Hps as [Hp Hps].
  unfold chunk_passes in *. cbn [fold_left]. apply IH; [assumption|].
  now apply chunk_pass_lp_free.
Qed.

(** Every text is a head and a list of chunk bodies. *)
Lemma decompose (s : text) :
  exists g bodies,
    s = join g bodies /\ lp_free g = true
    /\ Forall (fun b => lp_free b = true) bodies.
Proof.
  induction s as [|c s (g & bodies & -> & Hg & Hb)].
  - exists [], []. repeat split. constructor.
  - destruct (Ascii.eqb c "L" && starts_paren g) eqn:E.
    + apply andb_true_iff in E as [Ec Ep]. apply Ascii.eqb_eq in Ec. subst c.
      destruct g as [|x g]; [discriminate|]. cbn [starts_paren] in Ep.
      apply Ascii.eqb_eq in Ep. subst x.
      exists [], (g :: bodies). split; [reflexivity|]. split; [reflexivity|].
      constructor; [now apply lp_free_tail in Hg|assumption].
    + exists (c :: g), bodies. split; [reflexivity|]. split; [|assumption].
      apply lp_free_cons; [assumption|].
      now apply andb_false_iff in E.
Qed.

(** ** All substitutions on one chunk *)

Lemma startswith_app (s p x : text) :
  Py.startswith s p = true -> Py.startswith (s ++ x) p = true.
Proof.
  intros H. apply startswith_split in H. rewrite H, <- app_assoc.
  apply startswith_self_app.
Qed.

Lemma clash_irrefl (q : text) : clash q q = false.
Proof.
  induction q as [|a q IH]; [reflexivity|].
  cbn [clash]. now rewrite Ascii.eqb_refl, IH.
Qed.

Lemma chunk_pass_miss (b : text) (p : pass) :
  Py.startswith b (fst p) = false -> chunk_pass b p = b.
Proof. intros H. unfold chunk_pass, chunk_sub. now rewrite H. Qed.

Lemma chunk_passes_miss (ps : list pass) (b : text) :
  (forall p, In p ps -> Py.startswith b (fst p) = false) ->
  chunk_passes ps b = b.
Proof.
  induction ps as [|p ps IH]; intros H; [reflexivity|].
  unfold chunk_passes in *. cbn [fold_left].
  rewrite chunk_pass_miss by (apply H; now left).
  apply IH. intros p' Hp'. apply H. now right.
Qed.

Lemma stable_on_spec (t x : text) (pj : pass) :
  stable_on t pj = true -> chunk_pass (t ++ x) pj = t ++ x.
Proof.
  unfold stable_on. intros H. apply orb_true_iff in H as [H|H].
  - apply chunk_pass_miss. now apply clash_startswith.
  - apply andb_true_iff in H as [Hs He]. apply text_eqb_eq in He.
    unfold chunk_pass, chunk_sub.
    rewrite (startswith_app _ _ x Hs), (skipn_startswith_app _ _ x Hs).
    now rewrite app_assoc, He.
Qed.

Lemma chunk_passes_stable (ps : list pass) (t x : text) :
  (forall pj, In pj ps -> stable_on t pj = true) ->
  chunk_passes ps (t ++ x) = t ++ x.
Proof.
  induction ps as [|p ps IH]; intros H; [reflexivity|].
  unfold chunk_passes in *. cbn [fold_left].
  rewrite stable_on_spec by (apply H; now left).
  apply IH. intros pj Hpj. apply H. now right.
Qed.

Lemma stable_table_spec (ps : list pass) :
  stable_table ps = true ->
  forall pi pj, In pi ps -> In pj ps -> stable_on (snd pi) pj = true.
Proof.
  unfold stable_table. intros H pi pj Hi Hj.
  rewrite forallb_forall in H. specialize (H pi Hi).
  rewrite forallb_forall in H. now apply H.
Qed.

Lemma firing_table_spec (ps : list pass) :
  firing_table ps = true ->
  forall pk pj, In pk ps -> In pj ps -> fires_as pk pj = true.
Proof.
  unfold firing_table. intros H pk pj Hk Hj.
  rewrite forallb_forall in H. specialize (H pk Hk).
  rewrite forallb_forall in H. now apply H.
Qed.

(** After all passes a chunk body is either untouched or starts with a
    replacement. *)
Lemma chunk_passes_cases (all ps : list pass) (b : text) :
  stable_table all = true -> incl ps all ->
  chunk_passes ps b = b
  \/ exists p x, In p all /\ chunk_passes ps b = snd p ++ x.
Proof.
  intros Hst. revert b; induction ps as [|p ps IH]; intros b Hin.
  - now left.
  - assert (Hp : In p all) by (apply Hin; now left).
    assert (Hps : incl ps all) by (intros y Hy; apply Hin; now right).
    unfold chunk_passes in *. cbn [fold_left].
    destruct (Py.startswith b (fst p)) eqn:E.
    + right. exists p, (skipn (length (fst p)) b). split; [assumption|].
      unfold chunk_pass at 2, chunk_sub. rewrite E.
      apply (chunk_passes_stable ps). intros pj Hj.
      apply (stable_table_spec all Hst); [assumption|now apply Hps].
    + rewrite chunk_pass_miss by assumption. now apply IH.
Qed.

Lemma chunk_passes_idem (ps : list pass) (b : text) :
  stable_table ps = true ->
  chunk_passes ps (chunk_passes ps b) = chunk_passes ps b.
Proof.
  intros Hst.
  destruct (chunk_passes_cases ps ps b Hst (incl_refl _)) as [E|(p & x & Hp & E)].
  - now rewrite !E.
  - rewrite E. apply chunk_passes_stable. intros pj Hj.
    now apply (stable_table_spec ps Hst).
Qed.

(** A chunk that starts with the pattern of a pass of the table ends up
    with the replacement of that pass. *)
Lemma chunk_passes_fires (all ps : list pass) (pk : pass) (x : text) :
  stable_table all = true -> firing_table all = true ->
  incl ps all -> In pk ps ->
  chunk_passes ps (fst pk ++ x) = snd pk ++ x.
Proof.
  intros Hst Hfi. induction ps as [|p ps IH]; intros Hin Hk; [destruct Hk|].
  assert (Hp : In p all) by (apply Hin; now left).
  assert (Hps : incl ps all) by (intros y Hy; apply Hin; now right).
  assert (Hka : In pk all) by now apply Hin.
  unfold chunk_passes in *. cbn [fold_left].
  pose proof (firing_table_spec all Hfi pk p Hka Hp) as F.
  unfold fires_as in F. apply orb_true_iff in F as [F|F].
  - rewrite chunk_pass_miss by now apply clash_startswith.
    apply IH; [assumption|]. destruct Hk as [->|Hk]; [|assumption].
    now rewrite clash_irrefl in F.
  - apply andb_true_iff in F as [Fs Fe]. apply text_eqb_eq in Fe.
    unfold chunk_pass at 2, chunk_sub.
    rewrite (startswith_app _ _ x Fs), (skipn_startswith_app _ _ x Fs).
    rewrite app_assoc, Fe. apply (chunk_passes_stable ps). intros pj Hj.
    apply (stable_table_spec all Hst); [assumption|now apply Hps].
Qed.

(** ** All substitutions on a whole content *)

Lemma run_passes_idem (ps : list pass) (s : text) :
  forallb good_pass ps = true -> stable_table ps = true ->
  run_passes ps (run_passes ps s) = run_passes ps s.
Proof.
  intros Hg Hst. destruct (decompose s) as (g & bodies & -> & Hg0 & Hb).
  rewrite run_passes_join by assumption.
  rewrite run_passes_join; [|assumption|assumption|].
  - rewrite map_map. f_equal. apply map_ext. intros b.
    now apply chunk_passes_idem.
  - apply Forall_map. revert Hb. apply Forall_impl. intros b.
    now apply chunk_passes_lp_free.
Qed.

Lemma join_app_chunk (g : text) (bs : list text) (u g' : text) (bs' : list text) :
  join g bs ++ LP ++ u ++ join g' bs' = join g (bs ++ (u ++ g') :: bs').
Proof.
  unfold join. rewrite flat_map_app. cbn [flat_map].
  now rewrite <- !app_assoc.
Qed.

(** A chunk whose rewriting does not depend on what follows it is rewritten
    in place, whatever stands before and after. *)
Lemma run_passes_context (ps : list pass) (pre u u' post : text) :
  forallb good_pass ps = true ->
  lp_free u = true -> ends_L u = false ->
  (forall x, chunk_passes ps (u ++ x) = u' ++ x) ->
  run_passes ps (pre ++ LP ++ u ++ post)
  = run_passes ps pre ++ LP ++ u' ++ run_passes ps post.
Proof.
  intros Hg Hu He Hx.
  destruct (decompose pre) as (g & bs & -> & Hg0 & Hb).
  destruct (decompose post) as (g' & bs' & -> & Hg1 & Hb').
  rewrite join_app_chunk.
  rewrite !run_passes_join; try assumption.
  - rewrite map_app. cbn [map]. rewrite Hx. now rewrite join_app_chunk.
  - apply Forall_app. split; [assumption|]. constructor; [|assumption].
    apply lp_free_app; [assumption|assumption|now left].
Qed.

Lemma occurs_chunk (g : text) (bodies : list text) (b q : text) :
  In b bodies -> Py.startswith b q = true -> occurs (LP ++ q) (join g bodies).
Proof.
  intros Hb Hs. apply in_split in Hb as (l1 & l2 & ->).
  apply startswith_split in Hs.
  exists (g ++ flat_map (fun b => LP ++ b) l1),
         (skipn (length q) b ++ flat_map (fun b => LP ++ b) l2).
  unfold join. rewrite flat_map_app. cbn [flat_map].
  rewrite Hs at 1. now rewrite <- !app_assoc.
Qed.

Lemma run_passes_no_occurrence (ps : list pass) (s : text) :
  forallb good_pass ps = true ->
  (forall p, In p ps -> ~ occurs (LP ++ fst p) s) ->
  run_passes ps s = s.
Proof.
  intros Hg Hno. destruct (decompose s) as (g & bodies & -> & Hg0 & Hb).
  rewrite run_passes_join by assumption. f_equal.
  rewrite <- (map_id bodies) at 2. apply map_ext_in. intros b Hbin.
  apply chunk_passes_miss. intros p Hp.
  destruct (Py.startswith b (fst p)) eqn:E; [|reflexivity].
  exfalso. apply (Hno p Hp). now apply (occurs_chunk g bodies b).
Qed.

(** ** The table of the script *)

Lemma passes_good : forallb good_pass passes = true.
Proof. vm_compute. reflexivity. Qed.

Lemma passes_stable : stable_table passes = true.
Proof. vm_compute. reflexivity. Qed.

Lemma passes_firing : firing_table passes = true.
Proof. vm_compute. reflexivity. Qed.

Lemma table_compiles : forallb pair_compiles key_mappings = true.
Proof. vm_compute. reflexivity. Qed.

Lemma table_keys_ok : forallb key_ok key_mappings = true.
Proof. vm_compute. reflexivity. Qed.

Lemma sub_literal_LP (q r s : text) :
  Re.sub_literal (LP ++ q) r s = Re.sub_scan (LP ++ q) r s 0.
Proof. reflexivity. Qed.

Lemma rewrite_pair_eq (kv : string * string) (c : text) :
  pair_compiles kv = true ->
  rewrite_pair c kv = Some (run_passes (passes_of_pair kv) c).
Proof.
  unfold pair_compiles, rewrite_pair, Re.sub. cbv zeta.
  destruct (Re.literal_of_pattern (pattern1 (txt (fst kv)))) as [p1|];
    [|discriminate].
  destruct (Re.literal_of_pattern (pattern2 (txt (fst kv)))) as [p2|];
    [|discriminate].
  destruct (Re.expand_template (replacement (escape (txt (snd kv))))) as [r|];
    [|discriminate].
  intros H. apply andb_true_iff in H as [H H3].
  apply andb_true_iff in H as [H1 H2].
  apply text_eqb_eq in H1, H2, H3. subst p1 p2 r.
  unfold call. now rewrite !sub_literal_LP.
Qed.

Lemma run_passes_app (ps1 ps2 : list pass) (c : text) :
  run_passes (ps1 ++ ps2) c = run_passes ps2 (run_passes ps1 c).
Proof. unfold run_passes. apply fold_left_app. Qed.

Lemma fold_rewrite_pairs (l : list (string * string)) (c : text) :
  forallb pair_compiles l = true ->
  fold_left (fun acc kv => match acc with
                           | Some c => rewrite_pair c kv
                           | None => None
                           end) l (Some c)
  = Some (run_passes (flat_map passes_of_pair l) c).
Proof.
  revert c; induction l as [|kv l IH]; intros c H; [reflexivity|].
  cbn [forallb] in H. apply andb_true_iff in H as [Hkv Hl].
  cbn [fold_left flat_map]. rewrite (rewrite_pair_eq kv c Hkv), (IH _ Hl).
  now rewrite run_passes_app.
Qed.

(** The loop never leaves the modelled fragment, and is the chain of the
    literal substitutions of [passes]. *)
Lemma update_content_eq (c : text) :
  update_content c = Some (run_passes passes c).
Proof. exact (fold_rewrite_pairs key_mappings c table_compiles). Qed.

Lemma passes_unfold : passes = flat_map passes_of_pair key_mappings.
Proof. reflexivity. Qed.

#[local] Opaque key_mappings passes update_content.

Lemma update_content_total (c : text) : exists c', update_content c = Some c'.
Proof. eexists. apply update_content_eq. Qed.

Lemma update_content_idem (c c' : text) :
  update_content c = Some c' -> update_content c' = Some c'.
Proof.
  rewrite (update_content_eq c). intros H.
  assert (E : run_passes passes c = c') by congruence. subst c'.
  rewrite update_content_eq.
  now rewrite (run_passes_idem passes c passes_good passes_stable).
Qed.

Lemma no_L_lp_free (u : text) :
  has_L u = false -> lp_free u = true /\ ends_L u = false.
Proof.
  unfold has_L. induction u as [|c u IH]; intros H; [now split|].
  cbn [existsb] in H. apply orb_false_iff in H as [Hc Hu].
  rewrite Ascii.eqb_sym in Hc. destruct (IH Hu) as [IH1 IH2]. split.
  - apply lp_free_cons; [assumption|now left].
  - destruct u as [|x u]; [exact Hc|]. now rewrite ends_L_cons.
Qed.

Lemma pass_in_table (k v : string) (Q : ascii) :
  In (k, v) key_mappings -> Q = dq \/ Q = sq ->
  In (quoted Q (txt k), quoted dq (escape (txt v))) passes.
Proof.
  intros Hin HQ. rewrite passes_unfold. apply in_flat_map.
  exists (k, v). split; [assumption|].
  unfold passes_of_pair. cbn [fst snd In].
  destruct HQ as [->| ->]; auto.
Qed.

Lemma pass_of_table (p : pass) :
  In p passes ->
  exists k v Q, In (k, v) key_mappings /\ (Q = dq \/ Q = sq)
                /\ p = (quoted Q (txt k), quoted dq (escape (txt v))).
Proof.
  rewrite passes_unfold. intros H.
  apply in_flat_map in H as ([k v] & Hin & Hp).
  unfold passes_of_pair in Hp. cbn [fst snd In] in Hp.
  destruct Hp as [<-|[<-|[]]]; exists k, v; [exists dq|exists sq]; auto.
Qed.

(** A call on a key of the table is rewritten in place. *)
Lemma run_passes_call (k v : string) (Q : ascii) (pre post : text) :
  In (k, v) key_mappings -> Q = dq \/ Q = sq ->
  run_passes passes (pre ++ call Q (txt k) ++ post)
  = run_passes passes pre ++ call dq (escape (txt v)) ++ run_passes passes post.
Proof.
  intros Hin HQ. pose proof (pass_in_table k v Q Hin HQ) as Hp.
  assert (Hg : good_pass (quoted Q (txt k), quoted dq (escape (txt v))) = true).
  { pose proof passes_good as G. rewrite forallb_forall in G. now apply G. }
  apply good_pass_iff in Hg as (HL & _ & _). cbn [fst] in HL.
  destruct (no_L_lp_free _ HL) as [Hfree Hend].
  unfold call. rewrite <- !app_assoc.
  apply run_passes_context; [apply passes_good|assumption|assumption|].
  intros x.
  apply (chunk_passes_fires passes passes
           (quoted Q (txt k), quoted dq (escape (txt v))) x);
    [apply passes_stable|apply passes_firing|apply incl_refl|assumption].
Qed.

(** Two quote-free tokens closed by the same quote are equal as soon as one
    closed token is a prefix of the other. *)
Lemma token_prefix (Q : ascii) (w k y z : text) :
  ~ In Q w -> ~ In Q k ->
  Py.startswith (w ++ Q :: y) (k ++ Q :: z) = true -> k = w.
Proof.
  revert w; induction k as [|a k IH]; intros [|c w] Hw Hk H;
    cbn [app Py.startswith] in H.
  - reflexivity.
  - apply andb_true_iff in H as [H _]. apply Ascii.eqb_eq in H.
    exfalso. apply Hw. now left.
  - apply andb_true_iff in H as [H _]. apply Ascii.eqb_eq in H.
    exfalso. apply Hk. now left.
  - apply andb_true_iff in H as [Hac H]. apply Ascii.eqb_eq in Hac. subst c.
    f_equal. apply IH with (w := w); [| |assumption].
    + intros F. apply Hw. now right.
    + intros F. apply Hk. now right.
Qed.

Lemma not_in_existsb (Q : ascii) (k : text) :
  existsb (Ascii.eqb Q) k = false -> ~ In Q k.
Proof.
  intros H F. assert (E : existsb (Ascii.eqb Q) k = true).
  { apply existsb_exists. exists Q. split; [assumption|apply Ascii.eqb_refl]. }
  congruence.
Qed.

Lemma key_quote_free (k v : string) (Q : ascii) :
  In (k, v) key_mappings -> Q = dq \/ Q = sq -> ~ In Q (txt k).
Proof.
  intros Hin HQ. pose proof table_keys_ok as K.
  rewrite forallb_forall in K. specialize (K _ Hin).
  unfold key_ok in K. cbn [fst] in K.
  apply andb_true_iff in K as [K1 K2]. apply negb_true_iff in K1, K2.
  destruct HQ as [->| ->]; now apply not_in_existsb.
Qed.

(** A call on a token that is not a key matches no pattern. *)
Lemma token_misses (Q : ascii) (w x : text) (p : pass) :
  Q = dq \/ Q = sq -> ~ In w keys -> ~ In Q w -> In p passes ->
  Py.startswith (quoted Q w ++ x) (fst p) = false.
Proof.
  intros HQ Hw HQw Hp.
  destruct (pass_of_table p Hp) as (k & v & Q' & Hin & HQ' & ->).
  cbn [fst]. unfold quoted. cbn [app Py.startswith].
  destruct (Ascii.eqb Q' Q) eqn:E; [|reflexivity]. cbn [andb].
  apply Ascii.eqb_eq in E. subst Q'. rewrite <- app_assoc.
  destruct (Py.startswith (w ++ [Q; ")"%char] ++ x)
                          (txt k ++ [Q; ")"%char])) eqn:S; [|reflexivity].
  exfalso. apply Hw.
  apply (token_prefix Q w (txt k)) in S;
    [|assumption|now apply (key_quote_free k v)].
  subst w. unfold keys. apply in_map_iff. exists (k, v). now split.
Qed.

Lemma run_passes_token (Q : ascii) (w pre post : text) :
  Q = dq \/ Q = sq -> ~ In w keys -> ~ In Q w -> lp_free w = true ->
  run_passes passes (pre ++ call Q w ++ post)
  = run_passes passes pre ++ call Q w ++ run_passes passes post.
Proof.
  intros HQ Hw HQw Hfree. unfold call. rewrite <- !app_assoc.
  assert (HqL : Ascii.eqb Q "L" = false) by (destruct HQ as [->| ->]; reflexivity).
  assert (Hqp : Ascii.eqb Q "(" = false) by (destruct HQ as [->| ->]; reflexivity).
  apply run_passes_context; [apply passes_good| | |].
  - unfold quoted. apply lp_free_cons; [|now left].
    apply lp_free_app; [assumption| |right; exact Hqp].
    now rewrite lp_free_unfold, HqL.
  - unfold quoted. change (Q :: w ++ [Q; ")"%char]) with ((Q :: w) ++ [Q; ")"%char]).
    generalize (Q :: w). intros l. induction l as [|a l IHl]; [reflexivity|].
    destruct l as [|b l]; [reflexivity|]. cbn [app] in *. now rewrite ends_L_cons.
  - intros x. apply chunk_passes_miss. intros p Hp. now apply token_misses.
Qed.

(** ** Fixed points of the loop and their prefixes *)

Lemma gap_no_start (c : ascii) (g rest : text) :
  lp_free (c :: g) = true -> chunk_start rest = true ->
  Ascii.eqb c "L" && starts_paren (g ++ rest) = false.
Proof.
  intros Hg Hr. destruct (Ascii.eqb c "L") eqn:Ec; [|reflexivity].
  cbn [andb]. destruct g as [|x g].
  - destruct rest as [|y rest]; [reflexivity|].
    cbn [chunk_start] in Hr. apply Ascii.eqb_eq in Hr. now subst y.
  - rewrite lp_free_unfold, Ec in Hg. cbn [andb] in Hg.
    apply andb_true_iff in Hg as [Hx _]. now apply negb_true_iff in Hx.
Qed.

Lemma chunks_form (bodies : list text) :
  flat_map (fun b => LP ++ b) bodies = []
  \/ exists y, flat_map (fun b => LP ++ b) bodies = LP ++ y.
Proof.
  destruct bodies as [|b bs]; [now left|right].
  exists (b ++ flat_map (fun b => LP ++ b) bs). cbn [flat_map].
  now rewrite <- app_assoc.
Qed.

Lemma chunk_start_form (R : text) :
  R = [] \/ (exists y, R = LP ++ y) -> chunk_start R = true.
Proof. intros [->|[y ->]]; reflexivity. Qed.

Lemma gap_inj_nil (g R R' : text) :
  lp_free g = true ->
  R = [] \/ (exists y, R = LP ++ y) ->
  R' = [] \/ (exists y, R' = LP ++ y) ->
  R = g ++ R' -> g = [].
Proof.
  intros Hg HR HR' E. destruct g as [|c g]; [reflexivity|exfalso].
  destruct HR as [->|[y ->]]; [discriminate|].
  pose proof (gap_no_start c g R' Hg (chunk_start_form R' HR')) as N.
  change (LP ++ y) with ("L"%char :: "("%char :: y) in E.
  cbn [app] in E. injection E as Ec Eg. subst c. rewrite <- Eg in N.
  cbn in N. discriminate.
Qed.

Lemma gap_inj (g g' R R' : text) :
  lp_free g = true -> lp_free g' = true ->
  R = [] \/ (exists y, R = LP ++ y) ->
  R' = [] \/ (exists y, R' = LP ++ y) ->
  g ++ R = g' ++ R' -> g = g' /\ R = R'.
Proof.
  revert g'; induction g as [|c g IH]; intros g' Hg Hg' HR HR' E.
  - cbn [app] in E. pose proof (gap_inj_nil g' R R' Hg' HR HR' E) as ->.
    now split.
  - destruct g' as [|c' g'].
    + cbn [app] in E. symmetry in E.
      now pose proof (gap_inj_nil (c :: g) R' R Hg HR' HR E).
    + cbn [app] in E. injection E as Ec E. subst c'.
      destruct (IH g' (lp_free_tail _ _ Hg) (lp_free_tail _ _ Hg') HR HR' E)
        as [-> ->].
      now split.
Qed.

Lemma chunks_inj (bs bs' : list text) :
  Forall (fun b => lp_free b = true) bs ->
  Forall (fun b => lp_free b = true) bs' ->
  flat_map (fun b => LP ++ b) bs = flat_map (fun b => LP ++ b) bs' ->
  bs = bs'.
Proof.
  intros H. revert bs'. induction H as [|b bs Hb _ IH]; intros bs' H' E.
  - destruct bs' as [|b' bs']; [reflexivity|discriminate].
  - destruct H' as [|b' bs' Hb' H']; [discriminate|].
    cbn [flat_map] in E. rewrite <- !app_assoc in E.
    apply app_inv_head in E.
    apply gap_inj in E as [-> E]; try assumption; try apply chunks_form.
    f_equal. now apply IH.
Qed.

Lemma join_inj (g g' : text) (bs bs' : list text) :
  lp_free g = true -> lp_free g' = true ->
  Forall (fun b => lp_free b = true) bs ->
  Forall (fun b => lp_free b = true) bs' ->
  join g bs = join g' bs' -> g = g' /\ bs = bs'.
Proof.
  intros Hg Hg' Hb Hb' E. unfold join in E.
  apply gap_inj in E as [-> E]; try assumption; try apply chunks_form.
  split; [reflexivity|]. now apply chunks_inj.
Qed.

Lemma map_fixed {A : Type} (h : A -> A) (l : list A) :
  map h l = l -> forall b, In b l -> h b = b.
Proof.
  induction l as [|a l IH]; intros E b; [intros []|].
  cbn [map] in E. injection E as Ea El. intros [<-|Hb]; [assumption|].
  now apply IH.
Qed.

(** In a content the loop leaves unchanged, a pattern occurs only if its
    replacement is the pattern itself. *)
Lemma fixed_point_passes (c : text) (p : pass) :
  In p passes -> run_passes passes c = c -> occurs (LP ++ fst p) c ->
  snd p = fst p.
Proof.
  intros Hp Hfix (pre & post & ->).
  assert (Hgood : good_pass p = true).
  { pose proof passes_good as G. rewrite forallb_forall in G. now apply G. }
  apply good_pass_iff in Hgood as (HL & _ & _).
  destruct (no_L_lp_free _ HL) as [Hfree Hend].
  destruct (decompose pre) as (g & bs & -> & Hg & Hb).
  destruct (decompose post) as (g' & bs' & -> & Hg' & Hb').
  rewrite <- app_assoc, join_app_chunk in Hfix.
  assert (Hall : Forall (fun b => lp_free b = true)
                        (bs ++ (fst p ++ g') :: bs')).
  { apply Forall_app. split; [assumption|]. constructor; [|assumption].
    apply lp_free_app; [assumption|assumption|now left]. }
  rewrite (run_passes_join passes _ _ passes_good Hg Hall) in Hfix.
  apply join_inj in Hfix as [_ Hfix]; try assumption.
  - assert (E : chunk_passes passes (fst p ++ g') = fst p ++ g').
    { apply (map_fixed _ _ Hfix). apply in_or_app. right. now left. }
    rewrite (chunk_passes_fires passes passes p g' passes_stable
               passes_firing (incl_refl _) Hp) in E.
    now apply app_inv_tail in E.
  - apply Forall_map. revert Hall. apply Forall_impl. intros b.
    apply chunk_passes_lp_free, passes_good.
Qed.

Lemma chunk_passes_self (ps : list pass) (b : text) :
  (forall p, In p ps -> Py.startswith b (fst p) = true -> snd p = fst p) ->
  chunk_passes ps b = b.
Proof.
  induction ps as [|p ps IH]; intros H; [reflexivity|].
  unfold chunk_passes in *. cbn [fold_left].
  assert (E : chunk_pass b p = b).
  { unfold chunk_pass, chunk_sub.
    destruct (Py.startswith b (fst p)) eqn:S; [|reflexivity].
    rewrite (H p (or_introl eq_refl) S). symmetry.
    now apply startswith_split. }
  rewrite E. apply IH. intros p' Hp'. apply H. now right.
Qed.

Lemma self_passes_fixed (c : text) :
  (forall p, In p passes -> occurs (LP ++ fst p) c -> snd p = fst p) ->
  run_passes passes c = c.
Proof.
  intros H. destruct (decompose c) as (g & bodies & -> & Hg & Hb).
  rewrite (run_passes_join passes g bodies passes_good Hg Hb). f_equal.
  rewrite <- (map_id bodies) at 2. apply map_ext_in. intros b Hbin.
  apply chunk_passes_self. intros p Hp S. apply (H p Hp).
  now apply (occurs_chunk g bodies b).
Qed.

Lemma occurs_prefix (p c : text) (n : nat) :
  occurs p (firstn n c) -> occurs p c.
Proof.
  intros (pre & post & E). exists pre, (post ++ skipn n c).
  rewrite <- (firstn_skipn n c) at 1. rewrite E.
  now rewrite <- !app_assoc.
Qed.

(** A prefix of a content the loop leaves unchanged is left unchanged. *)
Lemma update_content_prefix (c : text) (n : nat) :
  update_content c = Some c ->
  update_content (firstn n c) = Some (firstn n c).
Proof.
  rewrite (update_content_eq c), (update_content_eq (firstn n c)).
  intros H. assert (Hfix : run_passes passes c = c) by congruence.
  f_equal. apply self_passes_fixed. intros p Hp Ho.
  apply (fixed_point_passes c p Hp Hfix). now apply (occurs_prefix _ c n).
Qed.

(** ** One file *)

Lemma update_file_process (p : text) (st : state) :
  update_file p st
  = {| fs := fst (process p (fs st));
       trace := trace st ++ snd (process p (fs st)) |}.
Proof.
  unfold update_file, update_file_try, read_text, substitute, write_text,
    print, bind, emit, ret, raise, process.
  cbn [fs trace fst snd].
  destruct (f_read (fs st p)) as [c|e]; cbn [fs trace fst snd].
  - destruct (update_content c) as [c'|]; cbn [fs trace fst snd].
    + destruct (negb (text_eqb c' c)); cbn [fs trace fst snd].
      * destruct (f_write (fs st p)) as [[e|e kept und later]|];
          cbn [fs trace fst snd]; now rewrite <- !app_assoc.
      * reflexivity.
    + now rewrite <- !app_assoc.
  - now rewrite <- !app_assoc.
Qed.

Lemma run_paths_process (ps : list text) (st : state) :
  run_paths ps st
  = {| fs := fst (process_all ps (fs st));
       trace := trace st ++ snd (process_all ps (fs st)) |}.
Proof.
  revert st; induction ps as [|p ps IH]; intros st.
  - cbn. rewrite app_nil_r. now destruct st.
  - unfold run_paths in *. cbn [fold_left process_all fst snd].
    rewrite IH, update_file_process. cbn [fs trace].
    now rewrite <- app_assoc.
Qed.

Lemma visit_files_paths (root : text) (files : list text) (st : state) :
  visit_files root files st
  = run_paths (map (Py.path_join root) (filter is_swift files)) st.
Proof.
  unfold visit_files, run_paths. revert st.
  induction files as [|f files IH]; intros st; [reflexivity|].
  cbn [fold_left filter]. fold (is_swift f).
  destruct (is_swift f); cbn [map fold_left]; apply IH.
Qed.

Lemma run_paths_app (l1 l2 : list text) (st : state) :
  run_paths (l1 ++ l2) st = run_paths l2 (run_paths l1 st).
Proof. unfold run_paths. apply fold_left_app. Qed.

Lemma run_walk_paths (w : list (text * list text * list text)) (st : state) :
  run_walk w st = run_paths (targets w) st.
Proof.
  unfold run_walk, targets. revert st.
  induction w as [|entry w IH]; intros st; [reflexivity|].
  cbn [fold_left flat_map]. rewrite run_paths_app, visit_files_paths.
  apply IH.
Qed.

Lemma process_fs (p : text) (m : filesystem) (q : text) :
  fst (process p m) q = if text_eqb q p then step_file (m p) else m q.
Proof.
  unfold process, step_file.
  destruct (text_eqb q p) eqn:E.
  - apply text_eqb_eq in E. subst q.
    destruct (f_read (m p)) as [c|e]; [|reflexivity].
    destruct (update_content c) as [c'|]; [|reflexivity].
    destruct (negb (text_eqb c' c)); [|reflexivity].
    destruct (f_write (m p)) as [[e|e kept und later]|]; [reflexivity| |];
      cbn [fst]; unfold fs_set; now rewrite text_eqb_refl.
  - destruct (f_read (m p)) as [c|e]; [|reflexivity].
    destruct (update_content c) as [c'|]; [|reflexivity].
    destruct (negb (text_eqb c' c)); [|reflexivity].
    destruct (f_write (m p)) as [[e|e kept und later]|]; [reflexivity| |];
      cbn [fst]; unfold fs_set; now rewrite E.
Qed.

Lemma step_file_written (c' : text) :
  update_content c' = Some c' ->
  step_file {| f_read := inl c'; f_write := None |}
  = {| f_read := inl c'; f_write := None |}.
Proof.
  intros E. unfold step_file. cbn [f_read f_write].
  rewrite E, text_eqb_refl. reflexivity.
Qed.

Lemma step_file_broken (c' : text) (kept : nat) (und : option text)
      (later : option write_failure) :
  update_content c' = Some c' ->
  step_file (broken_file c' kept und later) = broken_file c' kept und later.
Proof.
  intros E. unfold step_file, broken_file. cbn [f_read f_write].
  destruct und as [d|]; [reflexivity|].
  rewrite (update_content_prefix c' kept E), text_eqb_refl. reflexivity.
Qed.

Lemma step_file_idem (f : file) : step_file (step_file f) = step_file f.
Proof.
  unfold step_file at 2.
  destruct (f_read f) as [c|e] eqn:Er;
    [|unfold step_file; now rewrite Er].
  destruct (update_content c) as [c'|] eqn:Eu;
    [|unfold step_file; now rewrite Er, Eu].
  destruct (negb (text_eqb c' c)) eqn:En;
    [|unfold step_file; now rewrite Er, Eu, En].
  pose proof (update_content_idem c c' Eu) as Efix.
  destruct (f_write f) as [[e|e kept und later]|] eqn:Ew.
  - unfold step_file. now rewrite Er, Eu, En, Ew.
  - rewrite (step_file_broken c' kept und later Efix).
    unfold step_file. now rewrite Er, Eu, En, Ew.
  - rewrite (step_file_written c' Efix).
    unfold step_file. now rewrite Er, Eu, En, Ew.
Qed.

Lemma mem_In (q : text) (ps : list text) : mem q ps = true <-> In q ps.
Proof.
  unfold mem. rewrite existsb_exists. split.
  - intros (x & Hx & E). apply text_eqb_eq in E. now subst.
  - intros H. exists q. split; [assumption|apply text_eqb_refl].
Qed.

(** What a run leaves in a file depends on that file alone, and on whether
    the run visits it. *)
Lemma process_all_fs (ps : list text) (m : filesystem) (q : text) :
  fst (process_all ps m) q = if mem q ps then step_file (m q) else m q.
Proof.
  revert m; induction ps as [|p ps IH]; intros m; [reflexivity|].
  cbn [process_all fst]. rewrite IH, process_fs.
  unfold mem. cbn [existsb]. fold (mem q ps).
  destruct (text_eqb q p) eqn:E; cbn [orb].
  - apply text_eqb_eq in E. subst q.
    destruct (mem p ps); [apply step_file_idem|reflexivity].
  - reflexivity.
Qed.

Lemma raises_events (p : text) (m : filesystem) (e : text) :
  raises (m p) = Some e ->
  snd (process p m) = [OpenRead p; Printed (error_line p e)]
  \/ snd (process p m)
     = [OpenRead p; OpenWrite p; Printed (error_line p e)].
Proof.
  unfold raises, process.
  destruct (f_read (m p)) as [c|e0].
  - destruct (update_content c) as [c'|].
    + destruct (negb (text_eqb c' c)); [|discriminate].
      destruct (f_write (m p)) as [[e1|e1 kept und later]|];
        cbn [option_map failure_message]; [| |discriminate];
        intros [= <-]; now right.
    + intros [= <-]. now left.
  - intros [= <-]. now left.
Qed.

(** ** Events and paths *)

Lemma process_events_path (p : text) (m : filesystem) (e : event) (q : text) :
  In e (snd (process p m)) -> event_path e = Some q -> q = p.
Proof.
  unfold process.
  destruct (f_read (m p)) as [c|e0].
  - destruct (update_content c) as [c'|].
    + destruct (negb (text_eqb c' c)).
      * destruct (f_write (m p)) as [[e1|e1 kept und later]|]; cbn [snd In];
          intros [<-|[<-|[<-|[]]]]; cbn [event_path]; congruence.
      * cbn [snd In]. intros [<-|[]]. cbn [event_path]. congruence.
    + cbn [snd In]. intros [<-|[<-|[]]]; cbn [event_path]; congruence.
  - cbn [snd In]. intros [<-|[<-|[]]]; cbn [event_path]; congruence.
Qed.

Lemma process_opens (p : text) (m : filesystem) :
  In (OpenRead p) (snd (process p m)).
Proof.
  unfold process.
  destruct (f_read (m p)) as [c|e0]; [|now left].
  destruct (update_content c) as [c'|]; [|now left].
  destruct (negb (text_eqb c' c)); [|now left].
  destruct (f_write (m p)) as [[e1|e1 kept und later]|]; now left.
Qed.

Lemma process_all_events_path (ps : list text) (m : filesystem) (e : event) (q : text) :
  In e (snd (process_all ps m)) -> event_path e = Some q -> In q ps.
Proof.
  revert m; induction ps as [|p ps IH]; intros m; [intros []|].
  cbn [process_all snd]. intros H Hq. apply in_app_or in H as [H|H].
  - left. symmetry. now apply (process_events_path p m e q).
  - right. now apply (IH _ H).
Qed.

Lemma process_all_opens (ps : list text) (m : filesystem) (p : text) :
  In p ps -> In (OpenRead p) (snd (process_all ps m)).
Proof.
  revert m; induction ps as [|p0 ps IH]; intros m; [intros []|].
  cbn [process_all snd]. intros [->|H]; apply in_or_app.
  - left. apply process_opens.
  - right. now apply IH.
Qed.

(** ** The extension test and [os.path.join] *)

Lemma startswith_sep (s r p : text) (c : ascii) :
  ~ In c p -> Py.startswith (s ++ c :: r) p = Py.startswith s p.
Proof.
  revert p; induction s as [|x s IH]; intros [|a p] H;
    cbn [app Py.startswith]; try reflexivity.
  - destruct (Ascii.eqb a c) eqn:E; [|reflexivity].
    apply Ascii.eqb_eq in E. subst a. exfalso. apply H. now left.
  - rewrite IH; [reflexivity|]. intros F. apply H. now right.
Qed.

Lemma swift_no_sep : ~ In "/"%char (rev (txt ".swift")).
Proof. cbv. intuition discriminate. Qed.

Lemma is_swift_join (a b : text) : is_swift (Py.path_join a b) = is_swift b.
Proof.
  unfold Py.path_join.
  destruct (Py.startswith b (txt "/")); [reflexivity|].
  destruct a as [|x a]; [reflexivity|].
  destruct (Py.endswith (x :: a) (txt "/")) eqn:E.
  - unfold Py.endswith in E. apply startswith_split in E.
    unfold is_swift, Py.endswith. rewrite rev_app_distr, E.
    change (rev (txt "/") ++ ?r) with ("/"%char :: r).
    apply startswith_sep, swift_no_sep.
  - unfold is_swift, Py.endswith. rewrite !rev_app_distr, <- app_assoc.
    change (rev (txt "/") ++ ?r) with ("/"%char :: r).
    apply startswith_sep, swift_no_sep.
Qed.

Lemma targets_swift (w : list (text * list text * list text)) (p : text) :
  In p (targets w) -> is_swift p = true.
Proof.
  unfold targets. intros H. apply in_flat_map in H as (entry & _ & H).
  apply in_map_iff in H as (f & <- & Hf). apply filter_In in Hf as [_ Hf].
  now rewrite is_swift_join.
Qed.

Lemma targets_In (w : list (text * list text * list text))
      (root : text) (dirs files : list text) (file : text) :
  In (root, dirs, files) w -> In file files -> is_swift file = true ->
  In (Py.path_join root file) (targets w).
Proof.
  intros Hw Hf Hs. unfold targets. apply in_flat_map.
  exists (root, dirs, files). split; [assumption|]. cbn [fst snd].
  apply in_map. apply filter_In. now split.
Qed.

(** ** Calls in context *)

Lemma update_content_call (k v : string) (Q : ascii) (pre post : text) :
  In (k, v) key_mappings -> Q = dq \/ Q = sq ->
  exists pre' post',
    update_content pre = Some pre' /\ update_content post = Some post'
    /\ update_content (pre ++ call Q (txt k) ++ post)
       = Some (pre' ++ call dq (escape (txt v)) ++ post').
Proof.
  intros Hin HQ.
  exists (run_passes passes pre), (run_passes passes post).
  rewrite (update_content_eq pre), (update_content_eq post),
    (update_content_eq (pre ++ call Q (txt k) ++ post)).
  repeat split.
  now rewrite (run_passes_call k v Q pre post Hin HQ).
Qed.

Lemma update_content_token (w : text) (Q : ascii) (pre post : text) :
  Q = dq \/ Q = sq -> ~ In w keys -> ~ In Q w -> lp_free w = true ->
  exists pre' post',
    update_content pre = Some pre' /\ update_content post = Some post'
    /\ update_content (pre ++ call Q w ++ post)
       = Some (pre' ++ call Q w ++ post').
Proof.
  intros HQ Hw HQw Hfree.
  exists (run_passes passes pre), (run_passes passes post).
  rewrite (update_content_eq pre), (update_content_eq post),
    (update_content_eq (pre ++ call Q w ++ post)).
  repeat split.
  now rewrite (run_passes_token Q w pre post HQ Hw HQw Hfree).
Qed.

Lemma update_content_no_call (c : text) :
  (forall k Q, In k keys -> Q = dq \/ Q = sq -> ~ occurs (call Q k) c) ->
  update_content c = Some c.
Proof.
  intros H. rewrite update_content_eq. f_equal.
  apply run_passes_no_occurrence; [apply passes_good|].
  intros p Hp. destruct (pass_of_table p Hp) as (k & v & Q & Hin & HQ & ->).
  cbn [fst]. apply (H (txt k) Q); [|assumption].
  unfold keys. apply in_map_iff. exists (k, v). now split.
Qed.

Lemma occurs_middle (pre p post : text) : occurs p (pre ++ p ++ post).
Proof. now exists pre, post. Qed.

Lemma in_table (k v : string) :
  existsb (fun kv => String.eqb (fst kv) k && String.eqb (snd kv) v)
          key_mappings = true ->
  In (k, v) key_mappings.
Proof.
  intros H. apply existsb_exists in H as ([k' v'] & Hin & E).
  cbn [fst snd] in E. apply andb_true_iff in E as [E1 E2].
  apply String.eqb_eq in E1, E2. now subst.
Qed.

Lemma not_key (w : text) : mem w keys = false -> ~ In w keys.
Proof. intros H F. apply mem_In in F. congruence. Qed.

(** * Properties of the rewriter *)

(** C1: for every pair [(old_key, new_value)] of the table and every
    content, an occurrence of [L("old_key")] or [L('old_key')] is replaced
    by the call on the (escaped) mapped value, whatever stands before and
    after it; a call whose quoted token is not a key (a token being a text
    without its own quote character and without [L(]) stays as it is, also
    when a key is a prefix of it; a content without any call on a key is
    unchanged.  In particular [L("sent_payments")] and [L("sent")] both
    become [L("Sent")], and [L("sent_payments_extra")] is left as it is. *)
Theorem exact_rewriting :
  (forall k v Q pre post,
      In (k, v) key_mappings -> Q = dq \/ Q = sq ->
      exists pre' post',
        update_content pre = Some pre' /\ update_content post = Some post'
        /\ update_content (pre ++ call Q (txt k) ++ post)
           = Some (pre' ++ call dq (escape (txt v)) ++ post'))
  /\ (forall w Q pre post,
         Q = dq \/ Q = sq -> ~ In w keys -> ~ In Q w -> lp_free w = true ->
         exists pre' post',
           update_content pre = Some pre' /\ update_content post = Some post'
           /\ update_content (pre ++ call Q w ++ post)
              = Some (pre' ++ call Q w ++ post'))
  /\ (forall c,
         (forall k Q, In k keys -> Q = dq \/ Q = sq -> ~ occurs (call Q k) c) ->
         update_content c = Some c)
  /\ (forall pre post, exists out,
         update_content (pre ++ call dq (txt "sent_payments") ++ post) = Some out
         /\ occurs (call dq (txt "Sent")) out)
  /\ (forall pre post, exists out,
         update_content (pre ++ call dq (txt "sent") ++ post) = Some out
         /\ occurs (call dq (txt "Sent")) out)
  /\ update_content (call dq (txt "sent_payments_extra"))
     = Some (call dq (txt "sent_payments_extra")).
Proof.
  split; [exact update_content_call|].
  split; [exact update_content_token|].
  split; [exact update_content_no_call|].
  split; [|split].
  - intros pre post.
    destruct (update_content_call "sent_payments" "Sent" dq pre post)
      as (pre' & post' & _ & _ & E);
      [apply in_table; vm_compute; reflexivity|now left|].
    eexists. split; [exact E|apply occurs_middle].
  - intros pre post.
    destruct (update_content_call "sent" "Sent" dq pre post)
      as (pre' & post' & _ & _ & E);
      [apply in_table; vm_compute; reflexivity|now left|].
    eexists. split; [exact E|apply occurs_middle].
  - vm_compute. reflexivity.
Qed.

Lemma exact_rewriting_witness :
  update_content (txt "Text(" ++ call sq (txt "sent_payments") ++ txt ")")
  = Some (txt "Text(" ++ call dq (txt "Sent") ++ txt ")")
  /\ update_content
       (txt "a" ++ call dq (txt "sent_payments_extra") ++ txt "b")
     = Some (txt "a" ++ call dq (txt "sent_payments_extra") ++ txt "b")
  /\ update_content (txt "let x = 1") = Some (txt "let x = 1").
Proof.
  destruct exact_rewriting as (H1 & H2 & H3 & _).
  split; [|split].
  - destruct (H1 "sent_payments" "Sent" sq (txt "Text(") (txt ")"))
      as (pre' & post' & Ea & Eb & E);
      [apply in_table; vm_compute; reflexivity|now right|].
    assert (Ha : update_content (txt "Text(") = Some (txt "Text("))
      by (vm_compute; reflexivity).
    assert (Hb : update_content (txt ")") = Some (txt ")"))
      by (vm_compute; reflexivity).
    assert (Ea' : pre' = txt "Text(") by congruence.
    assert (Eb' : post' = txt ")") by congruence.
    rewrite E, Ea', Eb'. reflexivity.
  - destruct (H2 (txt "sent_payments_extra") dq (txt "a") (txt "b"))
      as (pre' & post' & Ea & Eb & E);
      [now left|apply not_key; vm_compute; reflexivity
      |cbv; intuition discriminate|reflexivity|].
    assert (Ha : update_content (txt "a") = Some (txt "a"))
      by (vm_compute; reflexivity).
    assert (Hb : update_content (txt "b") = Some (txt "b"))
      by (vm_compute; reflexivity).
    assert (Ea' : pre' = txt "a") by congruence.
    assert (Eb' : post' = txt "b") by congruence.
    rewrite E, Ea', Eb'. reflexivity.
  - apply H3. intros k Q Hk HQ (pre & post & E).
    assert (L : In "L"%char (txt "let x = 1")).
    { rewrite E. apply in_or_app. right. now left. }
    cbv in L. intuition discriminate.
Defined.

(** C2: the substitution pass is idempotent, [f (f c) = f c] for every
    content [c] (and [f] is defined on every content); a second run over a
    tree the first run has rewritten changes no file. *)
Theorem rewriting_idempotent :
  (forall c, exists c',
      update_content c = Some c' /\ update_content c' = Some c')
  /\ (forall w st q,
         fs (run_walk w (run_walk w st)) q = fs (run_walk w st) q).
Proof.
  split.
  - intros c. destruct (update_content_total c) as [c' E].
    exists c'. split; [assumption|now apply (update_content_idem c)].
  - intros w st q. rewrite !run_walk_paths, !run_paths_process.
    cbn [fs]. rewrite !process_all_fs.
    destruct (mem q (targets w)); [apply step_file_idem|reflexivity].
Qed.

Lemma escape_cons (c : ascii) (v : text) :
  escape (c :: v)
  = (if Ascii.eqb c dq then [bs; dq]
     else if Ascii.eqb c sq then [bs; sq] else [c]) ++ escape v.
Proof.
  unfold escape, Py.replace_char. cbn [flat_map]. rewrite flat_map_app.
  f_equal. destruct (Ascii.eqb c dq); [reflexivity|].
  cbn [flat_map]. now rewrite app_nil_r.
Qed.

Lemma escape_quotes_preceded (v : text) (prev : ascii) :
  quotes_preceded prev (escape v) = true.
Proof.
  revert prev; induction v as [|c v IH]; intros prev; [reflexivity|].
  rewrite escape_cons.
  destruct (Ascii.eqb c dq) eqn:Ed; [|destruct (Ascii.eqb c sq) eqn:Es].
  - cbn [app quotes_preceded]. rewrite IH. reflexivity.
  - cbn [app quotes_preceded]. rewrite IH. reflexivity.
  - cbn [app quotes_preceded]. rewrite Ed, Es, IH. reflexivity.
Qed.

Lemma table_values_escaped :
  forallb (fun kv => quotes_escaped (escape (txt (snd kv)))) key_mappings
  = true.
Proof. vm_compute. reflexivity. Qed.

Lemma table_template (k v : string) :
  In (k, v) key_mappings ->
  Re.expand_template (replacement (escape (txt v)))
  = Some (call dq (escape (txt v))).
Proof.
  intros Hin. pose proof table_compiles as T.
  rewrite forallb_forall in T. specialize (T _ Hin).
  unfold pair_compiles in T. cbv zeta in T. cbn [fst snd] in T.
  destruct (Re.literal_of_pattern (pattern1 (txt k))); [|discriminate].
  destruct (Re.literal_of_pattern (pattern2 (txt k))); [|discriminate].
  destruct (Re.expand_template (replacement (escape (txt v)))) as [r|];
    [|discriminate].
  apply andb_true_iff in T as [_ T]. apply text_eqb_eq in T. now subst.
Qed.

(** C3: a mapped value is escaped before it is inserted: in the escaped
    value every quote character (double quote or apostrophe) has a backslash
    right before it, for any value; for every pair of the table the escaped
    value is a sequence of ordinary characters and backslash escapes, the
    text [re.sub] inserts is [L("escaped value")] with these backslashes
    kept, and that is what replaces a call on the key.  The refund
    explanation, with its three apostrophes, is the example. *)
Theorem escaping_keeps_literal :
  (forall v prev, quotes_preceded prev (escape v) = true)
  /\ (forall k v,
         In (k, v) key_mappings ->
         quotes_escaped (escape (txt v)) = true
         /\ Re.expand_template (replacement (escape (txt v)))
            = Some (call dq (escape (txt v)))
         /\ forall Q pre post,
             Q = dq \/ Q = sq ->
             exists pre' post',
               update_content pre = Some pre'
               /\ update_content post = Some post'
               /\ update_content (pre ++ call Q (txt k) ++ post)
                  = Some (pre' ++ call dq (escape (txt v)) ++ post'))
  /\ update_content (call dq (txt "refund_explanation"))
     = Some (call dq (txt "These payments didn\'t go through. Tap \'Get Money Back\' to return the funds to your Bitcoin wallet.")).
Proof.
  split; [exact escape_quotes_preceded|]. split.
  - intros k v Hin. split; [|split].
    + pose proof table_values_escaped as T. rewrite forallb_forall in T.
      exact (T _ Hin).
    + exact (table_template k v Hin).
    + intros Q pre post HQ. now apply update_content_call.
  - vm_compute. reflexivity.
Qed.

Lemma escaping_keeps_literal_witness :
  In ("insufficient_funds",
      "Insufficient funds. You don't have enough sats for this payment.")
     key_mappings
  /\ quotes_escaped
       (escape (txt "Insufficient funds. You don't have enough sats for this payment."))
     = true
  /\ update_content (call sq (txt "insufficient_funds"))
     = Some (call dq (txt "Insufficient funds. You don\'t have enough sats for this payment.")).
Proof.
  assert (Hin : In ("insufficient_funds",
                    "Insufficient funds. You don't have enough sats for this payment.")
                   key_mappings)
    by (apply in_table; vm_compute; reflexivity).
  destruct escaping_keeps_literal as (_ & H & _).
  destruct (H _ _ Hin) as (H1 & _ & H3).
  split; [exact Hin|]. split; [exact H1|].
  destruct (H3 sq [] [] (or_intror eq_refl)) as (pre' & post' & Ea & Eb & E).
  assert (Hn : update_content [] = Some []) by (vm_compute; reflexivity).
  assert (Ea' : pre' = []) by congruence.
  assert (Eb' : post' = []) by congruence.
  rewrite Ea', Eb' in E. cbn [app] in E. rewrite app_nil_r in E.
  rewrite E. reflexivity.
Defined.

Lemma call_app (Q : ascii) (k x : text) :
  call Q k ++ x = txt "L(" ++ [Q] ++ k ++ [Q] ++ txt ")" ++ x.
Proof.
  unfold call, quoted, LP, txt. cbn [String.list_ascii_of_string app].
  rewrite <- app_assoc. reflexivity.
Qed.

(** C4: both quoting styles are rewritten to the double-quoted form:
    [L('receive')] and [L("receive")] both become [L("Receive")], inside any
    content; for every pair of the table an occurrence of [L('old_key')] is
    replaced by [L("escaped_new_value")], whose quotes are double quotes. *)
Theorem quote_normalization :
  update_content (call sq (txt "receive")) = Some (call dq (txt "Receive"))
  /\ update_content (call dq (txt "receive")) = Some (call dq (txt "Receive"))
  /\ (forall Q pre post,
         Q = dq \/ Q = sq ->
         exists out,
           update_content (pre ++ call Q (txt "receive") ++ post) = Some out
           /\ occurs (call dq (txt "Receive")) out)
  /\ (forall k v pre post,
         In (k, v) key_mappings ->
         exists pre' post',
           update_content pre = Some pre' /\ update_content post = Some post'
           /\ update_content (pre ++ call sq (txt k) ++ post)
              = Some (pre' ++ txt "L(" ++ [dq] ++ escape (txt v) ++ [dq]
                           ++ txt ")" ++ post')).
Proof.
  split; [vm_compute; reflexivity|]. split; [vm_compute; reflexivity|]. split.
  - intros Q pre post HQ.
    destruct (update_content_call "receive" "Receive" Q pre post)
      as (pre' & post' & _ & _ & E);
      [apply in_table; vm_compute; reflexivity|assumption|].
    eexists. split; [exact E|apply occurs_middle].
  - intros k v pre post Hin.
    destruct (update_content_call k v sq pre post Hin (or_intror eq_refl))
      as (pre' & post' & Ea & Eb & E).
    exists pre', post'. split; [assumption|]. split; [assumption|].
    rewrite E, call_app. reflexivity.
Qed.

Lemma quote_normalization_witness :
  In ("ok", "OK") key_mappings
  /\ update_content (txt "Button(" ++ call sq (txt "ok") ++ txt ")")
     = Some (txt "Button(" ++ call dq (txt "OK") ++ txt ")").
Proof.
  assert (Hin : In ("ok", "OK") key_mappings)
    by (apply in_table; vm_compute; reflexivity).
  split; [exact Hin|].
  destruct quote_normalization as (_ & _ & _ & H).
  destruct (H "ok" "OK" (txt "Button(") (txt ")") Hin)
    as (pre' & post' & Ea & Eb & E).
  assert (Ha : update_content (txt "Button(") = Some (txt "Button("))
    by (vm_compute; reflexivity).
  assert (Hb : update_content (txt ")") = Some (txt ")"))
    by (vm_compute; reflexivity).
  assert (Ea' : pre' = txt "Button(") by congruence.
  assert (Eb' : post' = txt ")") by congruence.
  rewrite E, Ea', Eb'. reflexivity.
Defined.

(** C9: the table maps [place_singular] to the empty string, so a call on
    that key, in either quoting style and inside any content, becomes the
    call [L("")] on the empty string literal. *)
Theorem empty_argument_call :
  In ("place_singular", String.EmptyString) key_mappings
  /\ call dq [] = txt "L(" ++ [dq; dq] ++ txt ")"
  /\ update_content (call dq (txt "place_singular")) = Some (call dq [])
  /\ update_content (call sq (txt "place_singular")) = Some (call dq [])
  /\ (forall Q pre post,
         Q = dq \/ Q = sq ->
         exists pre' post',
           update_content pre = Some pre' /\ update_content post = Some post'
           /\ update_content (pre ++ call Q (txt "place_singular") ++ post)
              = Some (pre' ++ call dq [] ++ post')).
Proof.
  assert (Hin : In ("place_singular", String.EmptyString) key_mappings)
    by (apply in_table; vm_compute; reflexivity).
  split; [exact Hin|]. split; [reflexivity|].
  split; [vm_compute; reflexivity|]. split; [vm_compute; reflexivity|].
  intros Q pre post HQ.
  exact (update_content_call "place_singular" String.EmptyString Q pre post Hin HQ).
Qed.

Lemma empty_argument_call_witness :
  update_content (txt "x" ++ call sq (txt "place_singular") ++ txt "y")
  = Some (txt "x" ++ call dq [] ++ txt "y").
Proof.
  destruct empty_argument_call as (_ & _ & _ & _ & H).
  destruct (H sq (txt "x") (txt "y") (or_intror eq_refl))
    as (pre' & post' & Ea & Eb & E).
  assert (Ha : update_content (txt "x") = Some (txt "x"))
    by (vm_compute; reflexivity).
  assert (Hb : update_content (txt "y") = Some (txt "y"))
    by (vm_compute; reflexivity).
  assert (Ea' : pre' = txt "x") by congruence.
  assert (Eb' : post' = txt "y") by congruence.
  rewrite E, Ea', Eb'. reflexivity.
Defined.

(** C10: the rewriting is not injective: [L("open_settings")] and
    [L("open_settings_button")] both become [L("Open Settings")], and
    [L("sent")] and [L("sent_payments")] both become [L("Sent")]; so no
    function recovers the original content from the rewritten one. *)
Theorem rewriting_not_injective :
  update_content (call dq (txt "open_settings"))
  = Some (call dq (txt "Open Settings"))
  /\ update_content (call dq (txt "open_settings_button"))
     = Some (call dq (txt "Open Settings"))
  /\ update_content (call dq (txt "sent")) = Some (call dq (txt "Sent"))
  /\ update_content (call dq (txt "sent_payments"))
     = Some (call dq (txt "Sent"))
  /\ call dq (txt "open_settings") <> call dq (txt "open_settings_button")
  /\ call dq (txt "sent") <> call dq (txt "sent_payments")
  /\ ~ (forall c1 c2, update_content c1 = update_content c2 -> c1 = c2)
  /\ ~ (exists g : text -> text,
           forall c c', update_content c = Some c' -> g c' = c).
Proof.
  assert (E1 : update_content (call dq (txt "open_settings"))
               = Some (call dq (txt "Open Settings")))
    by (vm_compute; reflexivity).
  assert (E2 : update_content (call dq (txt "open_settings_button"))
               = Some (call dq (txt "Open Settings")))
    by (vm_compute; reflexivity).
  assert (E3 : update_content (call dq (txt "sent"))
               = Some (call dq (txt "Sent")))
    by (vm_compute; reflexivity).
  assert (E4 : update_content (call dq (txt "sent_payments"))
               = Some (call dq (txt "Sent")))
    by (vm_compute; reflexivity).
  assert (N1 : call dq (txt "open_settings")
               <> call dq (txt "open_settings_button"))
    by (intros F; apply text_eqb_eq in F; vm_compute in F; discriminate).
  assert (N2 : call dq (txt "sent") <> call dq (txt "sent_payments"))
    by (intros F; apply text_eqb_eq in F; vm_compute in F; discriminate).
  repeat (split; [assumption|]). split.
  - intros H. apply N2. apply H. now rewrite E3, E4.
  - intros [g H]. apply N2. rewrite <- (H _ _ E3). now rewrite (H _ _ E4).
Qed.

(** ** Runs over lists of paths *)

Lemma process_all_app (l1 l2 : list text) (m : filesystem) :
  process_all (l1 ++ l2) m
  = (fst (process_all l2 (fst (process_all l1 m))),
     snd (process_all l1 m) ++ snd (process_all l2 (fst (process_all l1 m)))).
Proof.
  revert m; induction l1 as [|p l1 IH]; intros m.
  - cbn [app process_all fst snd]. now destruct (process_all l2 m).
  - cbn [app process_all fst snd]. rewrite IH. cbn [fst snd].
    now rewrite app_assoc.
Qed.

Lemma targets_app (w1 w2 : list (text * list text * list text)) :
  targets (w1 ++ w2) = targets w1 ++ targets w2.
Proof. unfold targets. apply flat_map_app. Qed.

Lemma targets_entry (w1 w2 : list (text * list text * list text))
      (root : text) (dirs files : list text) :
  targets (w1 ++ (root, dirs, files) :: w2)
  = targets w1 ++ map (Py.path_join root) (filter is_swift files)
    ++ targets w2.
Proof. rewrite targets_app. reflexivity. Qed.

Lemma process_events_ext (p : text) (m m' : filesystem) :
  m p = m' p -> snd (process p m) = snd (process p m').
Proof.
  intros E. unfold process. rewrite E.
  destruct (f_read (m' p)) as [c|e]; [|reflexivity].
  destruct (update_content c) as [c'|]; [|reflexivity].
  destruct (negb (text_eqb c' c)); [|reflexivity].
  destruct (f_write (m' p)) as [[e|e kept und later]|]; reflexivity.
Qed.

Lemma process_all_events_ext (l : list text) (m m' : filesystem) :
  (forall q, In q l -> m q = m' q) ->
  snd (process_all l m) = snd (process_all l m').
Proof.
  revert m m'; induction l as [|p l IH]; intros m m' H; [reflexivity|].
  cbn [process_all snd].
  rewrite (process_events_ext p m m' (H p (or_introl eq_refl))).
  f_equal. apply IH. intros q Hq. rewrite !process_fs.
  rewrite (H p (or_introl eq_refl)), (H q (or_intror Hq)). reflexivity.
Qed.

Lemma first_failure_logged (ps : list text) (m : filesystem) (bad e : text) :
  In bad ps -> raises (m bad) = Some e ->
  In (Printed (error_line bad e)) (snd (process_all ps m)).
Proof.
  revert m; induction ps as [|p ps IH]; intros m Hin Hr; [destruct Hin|].
  cbn [process_all snd]. apply in_or_app.
  destruct (text_eqb bad p) eqn:E.
  - apply text_eqb_eq in E. subst p. left.
    destruct (raises_events bad m e Hr) as [-> | ->]; cbn [In]; auto.
  - right. apply IH.
    + destruct Hin as [->|Hin]; [|assumption].
      now rewrite text_eqb_refl in E.
    + now rewrite process_fs, E.
Qed.

Lemma mem_app (q : text) (l1 l2 : list text) :
  mem q (l1 ++ l2) = mem q l1 || mem q l2.
Proof. unfold mem. apply existsb_app. Qed.

Lemma mem_false (q : text) (l : list text) : ~ In q l -> mem q l = false.
Proof.
  intros H. destruct (mem q l) eqn:E; [|reflexivity].
  apply mem_In in E. contradiction.
Qed.

Lemma run_paths_isolation (l1 l2 : list text) (bad e : text) (st : state) :
  raises (fs st bad) = Some e ->
  (forall q, q <> bad ->
             fs (run_paths (l1 ++ bad :: l2) st) q
             = fs (run_paths (l1 ++ l2) st) q)
  /\ In (Printed (error_line bad e)) (trace (run_paths (l1 ++ bad :: l2) st))
  /\ (~ In bad (l1 ++ l2) ->
      exists t1 t2 ev,
        trace (run_paths (l1 ++ l2) st) = trace st ++ t1 ++ t2
        /\ trace (run_paths (l1 ++ bad :: l2) st) = trace st ++ t1 ++ ev ++ t2
        /\ (ev = [OpenRead bad; Printed (error_line bad e)]
            \/ ev = [OpenRead bad; OpenWrite bad;
                     Printed (error_line bad e)])).
Proof.
  intros Hr. split; [|split].
  - intros q Hq. rewrite !run_paths_process. cbn [fs].
    rewrite !process_all_fs, !mem_app. unfold mem at 2. cbn [existsb].
    fold (mem q l2). apply text_eqb_neq in Hq. rewrite Hq. reflexivity.
  - rewrite run_paths_process. cbn [trace]. apply in_or_app. right.
    apply first_failure_logged; [|assumption].
    apply in_or_app. right. now left.
  - intros Hnot. rewrite !run_paths_process, !process_all_app.
    cbn [fs trace fst snd process_all].
    set (m1 := fst (process_all l1 (fs st))).
    assert (Hm1 : m1 bad = fs st bad).
    { unfold m1. rewrite process_all_fs, mem_false; [reflexivity|].
      intros F. apply Hnot. apply in_or_app. now left. }
    assert (Hr1 : raises (m1 bad) = Some e) by now rewrite Hm1.
    exists (snd (process_all l1 (fs st))), (snd (process_all l2 m1)),
           (snd (process bad m1)).
    split; [reflexivity|]. split; [|exact (raises_events bad m1 e Hr1)].
    do 3 f_equal. apply process_all_events_ext. intros q Hq.
    rewrite process_fs. destruct (text_eqb q bad) eqn:E; [|reflexivity].
    apply text_eqb_eq in E. subst q. exfalso. apply Hnot.
    apply in_or_app. now right.
Qed.

Lemma mem_equiv (q : text) (l1 l2 : list text) :
  (forall p, In p l1 <-> In p l2) -> mem q l1 = mem q l2.
Proof.
  intros H. destruct (mem q l1) eqn:E1, (mem q l2) eqn:E2; try reflexivity.
  - apply mem_In, H, mem_In in E1. congruence.
  - apply mem_In, H, mem_In in E2. congruence.
Qed.

Lemma run_walk_fs (w : list (text * list text * list text)) (st : state) (q : text) :
  fs (run_walk w st) q
  = if mem q (targets w) then step_file (fs st q) else fs st q.
Proof.
  rewrite run_walk_paths, run_paths_process. cbn [fs].
  apply process_all_fs.
Qed.

(** C5: a file whose read succeeds is opened for writing if and only if
    the transformed content differs from the original one.  When no
    substitution applies the file system is untouched and the only event is
    the read (no write, no [Updated] line); when the content changes and the
    write succeeds, the file holds the new content and the events are one
    read, one write and one [Updated: <path>] line. *)
Theorem write_iff_changed (filepath : text) (st : state) (c : text) :
  f_read (fs st filepath) = inl c ->
  exists c' ev,
    update_content c = Some c'
    /\ trace (update_file filepath st) = trace st ++ ev
    /\ (In (OpenWrite filepath) ev <-> c' <> c)
    /\ (In (Printed (updated_line filepath)) ev -> c' <> c)
    /\ (c' = c ->
        fs (update_file filepath st) = fs st /\ ev = [OpenRead filepath])
    /\ (c' <> c -> f_write (fs st filepath) = None ->
        fs (update_file filepath st)
        = fs_set filepath {| f_read := inl c'; f_write := None |} (fs st)
        /\ ev = [OpenRead filepath; OpenWrite filepath;
                 Printed (updated_line filepath)]).
Proof.
  intros Hread. destruct (update_content_total c) as [c' E].
  exists c', (snd (process filepath (fs st))).
  split; [exact E|].
  rewrite update_file_process. cbn [fs trace].
  split; [reflexivity|].
  unfold process. rewrite Hread, E.
  destruct (text_eqb c' c) eqn:Ec; cbn [negb].
  - apply text_eqb_eq in Ec. cbn [fst snd].
    split; [split|split; [|split]].
    + intros [F|[]]. discriminate.
    + intros F. contradiction.
    + intros [F|[]]. discriminate.
    + intros _. split; reflexivity.
    + intros F. contradiction.
  - apply text_eqb_neq in Ec.
    destruct (f_write (fs st filepath)) as [[e|e kept und later]|];
      cbn [fst snd].
    + split; [split|split; [|split]].
      * intros _. exact Ec.
      * intros _. right. now left.
      * intros _. exact Ec.
      * intros F. contradiction.
      * intros _ F. discriminate.
    + split; [split|split; [|split]].
      * intros _. exact Ec.
      * intros _. right. now left.
      * intros _. exact Ec.
      * intros F. contradiction.
      * intros _ F. discriminate.
    + split; [split|split; [|split]].
      * intros _. exact Ec.
      * intros _. right. now left.
      * intros _. exact Ec.
      * intros F. contradiction.
      * intros _ _. split; reflexivity.
Qed.

Lemma write_iff_changed_witness :
  f_read (fs example_state (txt "Lumen/A.swift"))
  = inl (txt "Text(" ++ call sq (txt "ok") ++ txt ")")
  /\ trace (update_file (txt "Lumen/A.swift") example_state)
     = [OpenRead (txt "Lumen/A.swift"); OpenWrite (txt "Lumen/A.swift");
        Printed (txt "Updated: Lumen/A.swift")]
  /\ f_read (fs (update_file (txt "Lumen/A.swift") example_state)
                (txt "Lumen/A.swift"))
     = inl (txt "Text(" ++ call dq (txt "OK") ++ txt ")").
Proof.
  split; [reflexivity|].
  destruct (write_iff_changed (txt "Lumen/A.swift") example_state
              (txt "Text(" ++ call sq (txt "ok") ++ txt ")") eq_refl)
    as (c' & ev & E & Et & _ & _ & _ & Hch).
  assert (Ec : update_content (txt "Text(" ++ call sq (txt "ok") ++ txt ")")
               = Some (txt "Text(" ++ call dq (txt "OK") ++ txt ")"))
    by (vm_compute; reflexivity).
  assert (Ec' : c' = txt "Text(" ++ call dq (txt "OK") ++ txt ")")
    by congruence.
  destruct Hch as [Hfs Hev].
  - rewrite Ec'. intros F. apply text_eqb_eq in F. vm_compute in F.
    discriminate.
  - reflexivity.
  - split.
    + rewrite Et, Hev. reflexivity.
    + rewrite Hfs, Ec'. reflexivity.
Defined.

(** C6: when processing one file raises (its read fails, or its content
    changes and the write fails), the exception is caught in [update_file],
    a line [Error updating <path>: <message>] is printed, and the traversal
    goes on.  The run over a tree with the failing file gives every other
    file the content it gets from the run over the same tree without that
    file; and, the failing file being visited once (the paths of a walk are
    distinct), its events are those of that run, with the failing file's
    read, possibly its failed write, and its one error line inserted in
    between.  What the failing file itself holds afterwards is not stated:
    a write that breaks after the file was opened leaves it cut short. *)
Theorem error_isolation
        (w1 w2 : list (text * list text * list text))
        (root : text) (dirs f1 f2 : list text) (file e : text) (st : state) :
  is_swift file = true ->
  raises (fs st (Py.path_join root file)) = Some e ->
  let bad := Py.path_join root file in
  let with_bad := run_walk (w1 ++ (root, dirs, f1 ++ file :: f2) :: w2) st in
  let without := run_walk (w1 ++ (root, dirs, f1 ++ f2) :: w2) st in
  (forall q, q <> bad -> fs with_bad q = fs without q)
  /\ In (Printed (error_line bad e)) (trace with_bad)
  /\ (~ In bad (targets (w1 ++ (root, dirs, f1 ++ f2) :: w2)) ->
      exists t1 t2 ev,
        trace without = trace st ++ t1 ++ t2
        /\ trace with_bad = trace st ++ t1 ++ ev ++ t2
        /\ (ev = [OpenRead bad; Printed (error_line bad e)]
            \/ ev = [OpenRead bad; OpenWrite bad;
                     Printed (error_line bad e)])).
Proof.
  intros Hs Hr. cbv zeta. rewrite !run_walk_paths.
  set (l1 := targets w1 ++ map (Py.path_join root) (filter is_swift f1)).
  set (l2 := map (Py.path_join root) (filter is_swift f2) ++ targets w2).
  assert (E1 : targets (w1 ++ (root, dirs, f1 ++ file :: f2) :: w2)
               = l1 ++ Py.path_join root file :: l2).
  { rewrite targets_entry, filter_app, map_app. cbn [filter].
    rewrite Hs. cbn [map]. unfold l1, l2.
    rewrite <- !app_assoc. reflexivity. }
  assert (E2 : targets (w1 ++ (root, dirs, f1 ++ f2) :: w2) = l1 ++ l2).
  { rewrite targets_entry, filter_app, map_app. unfold l1, l2.
    rewrite <- !app_assoc. reflexivity. }
  rewrite E1, E2. now apply run_paths_isolation.
Qed.

Lemma error_isolation_witness :
  is_swift (txt "A.swift") = true
  /\ raises (fs {| fs := example_fs_full; trace := [] |}
                (Py.path_join (txt "Lumen") (txt "A.swift")))
     = Some (txt "No space left on device")
  /\ (forall q,
         q <> Py.path_join (txt "Lumen") (txt "A.swift") ->
         fs (run_walk
               ([] ++ (txt "Lumen", [txt "Views"],
                       [] ++ txt "A.swift" :: [txt "notes.txt"])
                   :: [(txt "Lumen/Views", [], [txt "B.swift"])])
               {| fs := example_fs_full; trace := [] |}) q
         = fs (run_walk
                 ([] ++ (txt "Lumen", [txt "Views"], [] ++ [txt "notes.txt"])
                     :: [(txt "Lumen/Views", [], [txt "B.swift"])])
                 {| fs := example_fs_full; trace := [] |}) q).
Proof.
  split; [reflexivity|].
  assert (R : raises (fs {| fs := example_fs_full; trace := [] |}
                         (Py.path_join (txt "Lumen") (txt "A.swift")))
              = Some (txt "No space left on device"))
    by (vm_compute; reflexivity).
  split; [exact R|].
  exact (proj1 (error_isolation [] [(txt "Lumen/Views", [], [txt "B.swift"])]
                  (txt "Lumen") [txt "Views"] [] [txt "notes.txt"]
                  (txt "A.swift") (txt "No space left on device")
                  {| fs := example_fs_full; trace := [] |} eq_refl R)).
Defined.

(** C7: [update_file] is called on a file of the walked tree (the file is
    opened for reading) if and only if its name ends in [.swift]; a path
    that does not end in [.swift] is never opened, neither for reading nor
    for writing, and the file there is left as it was. *)
Theorem only_swift_files
        (w : list (text * list text * list text)) (m : filesystem) :
  let st := run_walk w {| fs := m; trace := [] |} in
  (forall root dirs files file,
      In (root, dirs, files) w -> In file files ->
      (In (OpenRead (Py.path_join root file)) (trace st)
       <-> Py.endswith file (txt ".swift") = true))
  /\ (forall p,
         Py.endswith p (txt ".swift") = false ->
         (forall e, In e (trace st) -> event_path e <> Some p)
         /\ fs st p = m p).
Proof.
  cbv zeta. rewrite run_walk_paths, run_paths_process.
  cbn [fs trace app]. split.
  - intros root dirs files file Hw Hf. split.
    + intros H.
      apply (process_all_events_path _ _ _ (Py.path_join root file)) in H;
        [|reflexivity].
      apply targets_swift in H. now rewrite is_swift_join in H.
    + intros Hs. apply process_all_opens.
      now apply (targets_In w root dirs files file).
  - intros p Hp. split.
    + intros e He Hpath.
      apply (process_all_events_path _ _ _ p) in He; [|assumption].
      apply targets_swift in He. unfold is_swift in He. congruence.
    + rewrite process_all_fs. destruct (mem p (targets w)) eqn:E;
        [|reflexivity].
      apply mem_In, targets_swift in E. unfold is_swift in E. congruence.
Qed.

Lemma only_swift_files_witness :
  (In (OpenRead (Py.path_join (txt "Lumen") (txt "A.swift")))
      (trace (run_walk example_walk {| fs := example_fs; trace := [] |}))
   <-> Py.endswith (txt "A.swift") (txt ".swift") = true)
  /\ Py.endswith (txt "Lumen/notes.txt") (txt ".swift") = false
  /\ fs (run_walk example_walk {| fs := example_fs; trace := [] |})
        (txt "Lumen/notes.txt")
     = example_fs (txt "Lumen/notes.txt").
Proof.
  destruct (only_swift_files example_walk example_fs) as [H1 H2].
  split; [|split].
  - exact (H1 (txt "Lumen") [txt "Views"] [txt "A.swift"; txt "notes.txt"]
              (txt "A.swift") (or_introl eq_refl) (or_introl eq_refl)).
  - reflexivity.
  - exact (proj2 (H2 (txt "Lumen/notes.txt") eq_refl)).
Defined.

(** C8: the content a run leaves in a file is a function of that file alone
    (and of whether the run visits it): the table is fixed and its pairs are
    applied in their order of definition.  So two traversals that visit the
    same files, in whatever order, leave the same content in every file; in
    particular a permutation of the directories [os.walk] yields changes
    nothing. *)
Theorem content_deterministic :
  (forall w st q,
      fs (run_walk w st) q
      = if mem q (targets w) then step_file (fs st q) else fs st q)
  /\ (forall t st q,
         fs (main t st) q
         = if mem q (targets (os_walk lumen_dir t))
           then step_file (fs st q) else fs st q)
  /\ (forall w1 w2 st,
         (forall p, In p (targets w1) <-> In p (targets w2)) ->
         forall q, fs (run_walk w1 st) q = fs (run_walk w2 st) q)
  /\ (forall w1 w2 st,
         Permutation w1 w2 ->
         forall q, fs (run_walk w1 st) q = fs (run_walk w2 st) q).
Proof.
  split; [exact run_walk_fs|]. split; [intros t st q; apply run_walk_fs|].
  assert (H : forall w1 w2 st,
             (forall p, In p (targets w1) <-> In p (targets w2)) ->
             forall q, fs (run_walk w1 st) q = fs (run_walk w2 st) q).
  { intros w1 w2 st Heq q. rewrite !run_walk_fs.
    now rewrite (mem_equiv q _ _ Heq). }
  split; [exact H|].
  intros w1 w2 st Hp. apply H. intros p.
  assert (P : Permutation (targets w1) (targets w2))
    by (unfold targets; now apply Permutation_flat_map).
  split; intros Hin.
  - now apply (Permutation_in _ P).
  - now apply (Permutation_in _ (Permutation_sym P)).
Qed.

Lemma content_deterministic_witness :
  Permutation example_walk (rev example_walk)
  /\ forall q,
      fs (run_walk example_walk example_state) q
      = fs (run_walk (rev example_walk) example_state) q.
Proof.
  assert (P : Permutation example_walk (rev example_walk))
    by apply Permutation_rev.
  split; [exact P|].
  destruct content_deterministic as (_ & _ & _ & H).
  exact (H example_walk (rev example_walk) example_state P).
Defined.

(** * Further properties of the loop *)

(** ** The order of the table *)

Lemma good_passes_incl (ps : list pass) :
  incl ps passes -> forallb good_pass ps = true.
Proof.
  intros H. apply forallb_forall. intros p Hp.
  pose proof passes_good as G. rewrite forallb_forall in G.
  apply G, H, Hp.
Qed.

Lemma chunk_passes_same_elements (ps : list pass) (b : text) :
  incl ps passes -> incl passes ps ->
  chunk_passes ps b = chunk_passes passes b.
Proof.
  intros H1 H2.
  destruct (existsb (fun p => Py.startswith b (fst p)) passes) eqn:E.
  - apply existsb_exists in E as (pk & Hk & Hs).
    apply startswith_split in Hs. rewrite Hs.
    rewrite (chunk_passes_fires passes ps pk _ passes_stable passes_firing H1
               (H2 _ Hk)).
    now rewrite (chunk_passes_fires passes passes pk _ passes_stable
                   passes_firing (incl_refl _) Hk).
  - assert (M : forall p, In p passes -> Py.startswith b (fst p) = false).
    { intros p Hp. destruct (Py.startswith b (fst p)) eqn:S; [|reflexivity].
      assert (T : existsb (fun p => Py.startswith b (fst p)) passes = true)
        by (apply existsb_exists; now exists p).
      congruence. }
    rewrite (chunk_passes_miss passes b M).
    apply chunk_passes_miss. intros p Hp. apply M, H1, Hp.
Qed.

Lemma run_passes_same_elements (ps : list pass) (s : text) :
  incl ps passes -> incl passes ps ->
  run_passes ps s = run_passes passes s.
Proof.
  intros H1 H2. destruct (decompose s) as (g & bodies & -> & Hg & Hb).
  rewrite (run_passes_join ps g bodies (good_passes_incl ps H1) Hg Hb).
  rewrite (run_passes_join passes g bodies passes_good Hg Hb).
  f_equal. apply map_ext. intros b. now apply chunk_passes_same_elements.
Qed.

(** X1: the result of the loop does not depend on the order in which the
    table yields its pairs: the loop over any permutation of [key_mappings]
    computes the same content as the loop over [key_mappings]. *)
Theorem table_order_irrelevant (l : list (string * string)) (c : text) :
  Permutation l key_mappings -> rewrite_all l c = update_content c.
Proof.
  intros P.
  assert (C : forallb pair_compiles l = true).
  { apply forallb_forall. intros kv Hkv.
    pose proof table_compiles as T. rewrite forallb_forall in T.
    apply T. now apply (Permutation_in _ P). }
  unfold rewrite_all. rewrite (fold_rewrite_pairs l c C), update_content_eq.
  f_equal.
  assert (PP : Permutation (flat_map passes_of_pair l) passes)
    by (rewrite passes_unfold; now apply Permutation_flat_map).
  apply run_passes_same_elements; intros p Hp.
  - now apply (Permutation_in _ PP).
  - now apply (Permutation_in _ (Permutation_sym PP)).
Qed.

Lemma table_order_irrelevant_witness :
  Permutation (rev key_mappings) key_mappings
  /\ rewrite_all (rev key_mappings) (call sq (txt "sent_payments"))
     = update_content (call sq (txt "sent_payments")).
Proof.
  assert (P : Permutation (rev key_mappings) key_mappings)
    by apply Permutation_sym, Permutation_rev.
  split; [exact P|].
  exact (table_order_irrelevant (rev key_mappings)
           (call sq (txt "sent_payments")) P).
Defined.

(** ** Calls are neither created nor removed *)

Lemma count_lp_cons (a : ascii) (s : text) :
  count_lp (a :: s)
  = (if Ascii.eqb a "L" && starts_paren s then 1 else 0) + count_lp s.
Proof.
  destruct s as [|b s]; [|reflexivity].
  cbn [count_lp starts_paren]. now rewrite andb_false_r.
Qed.

Lemma count_lp_gap (g rest : text) :
  lp_free g = true -> chunk_start rest = true ->
  count_lp (g ++ rest) = count_lp rest.
Proof.
  intros Hg Hr. induction g as [|c g IH]; [reflexivity|].
  cbn [app]. rewrite count_lp_cons, (gap_no_start c g rest Hg Hr).
  apply IH. now apply lp_free_tail in Hg.
Qed.

Lemma head_text_gap (g rest : text) :
  lp_free g = true -> chunk_start rest = true ->
  head_text (g ++ rest) = g ++ head_text rest.
Proof.
  intros Hg Hr. induction g as [|c g IH]; [reflexivity|].
  cbn [app head_text]. rewrite (gap_no_start c g rest Hg Hr).
  f_equal. apply IH. now apply lp_free_tail in Hg.
Qed.

Lemma count_lp_chunks (bodies : list text) :
  Forall (fun b => lp_free b = true) bodies ->
  count_lp (flat_map (fun b => LP ++ b) bodies) = length bodies.
Proof.
  induction 1 as [|b bs Hb _ IH]; [reflexivity|].
  cbn [flat_map length].
  change ((LP ++ b) ++ flat_map (fun b => LP ++ b) bs)
    with ("L"%char :: ("("%char :: b) ++ flat_map (fun b => LP ++ b) bs).
  rewrite count_lp_cons. cbn [app starts_paren].
  rewrite !Ascii.eqb_refl. cbn [andb Nat.add]. f_equal.
  change ("("%char :: b ++ flat_map (fun b => LP ++ b) bs)
    with (("("%char :: b) ++ flat_map (fun b => LP ++ b) bs).
  rewrite count_lp_gap; [exact IH| |apply chunk_start_chunks].
  apply lp_free_cons; [assumption|now left].
Qed.

Lemma count_lp_join (g : text) (bodies : list text) :
  lp_free g = true -> Forall (fun b => lp_free b = true) bodies ->
  count_lp (join g bodies) = length bodies.
Proof.
  intros Hg Hb. unfold join.
  rewrite count_lp_gap by (try apply chunk_start_chunks; assumption).
  now apply count_lp_chunks.
Qed.

Lemma head_text_join (g : text) (bodies : list text) :
  lp_free g = true -> head_text (join g bodies) = g.
Proof.
  intros Hg. unfold join.
  rewrite head_text_gap by (try apply chunk_start_chunks; assumption).
  destruct bodies as [|b bs]; [apply app_nil_r|].
  cbn [flat_map]. now rewrite app_nil_r.
Qed.

(** X2: the loop neither creates nor removes a call: the rewritten content
    has as many occurrences of [L(] as the original one, and the text before
    the first [L(] is unchanged. *)
Theorem calls_preserved (c : text) :
  exists c',
    update_content c = Some c'
    /\ count_lp c' = count_lp c
    /\ head_text c' = head_text c.
Proof.
  exists (run_passes passes c). split; [apply update_content_eq|].
  destruct (decompose c) as (g & bodies & -> & Hg & Hb).
  rewrite (run_passes_join passes g bodies passes_good Hg Hb).
  assert (Hb' : Forall (fun b => lp_free b = true)
                       (map (chunk_passes passes) bodies)).
  { apply Forall_map. revert Hb. apply Forall_impl. intros b.
    apply chunk_passes_lp_free, passes_good. }
  rewrite !count_lp_join, !head_text_join by assumption.
  split; [apply length_map|reflexivity].
Qed.

(** ** Concatenation at a call *)

(** X3: the loop distributes over a concatenation whose second part starts
    with [L(]: rewriting [a ++ b] gives the rewriting of [a] followed by the
    rewriting of [b]. *)
Theorem rewriting_splits_at_call (a b : text) :
  Py.startswith b (txt "L(") = true ->
  exists a' b',
    update_content a = Some a' /\ update_content b = Some b'
    /\ update_content (a ++ b) = Some (a' ++ b').
Proof.
  intros Hb. exists (run_passes passes a), (run_passes passes b).
  rewrite (update_content_eq a), (update_content_eq b),
    (update_content_eq (a ++ b)).
  split; [reflexivity|]. split; [reflexivity|]. f_equal.
  apply startswith_split in Hb. fold LP in Hb.
  destruct (decompose a) as (g & bs & -> & Hg & Hbs).
  destruct (decompose (skipn (length LP) b)) as (g' & bs' & E & Hg' & Hbs').
  assert (Eb : b = join [] (g' :: bs')).
  { rewrite Hb, E. unfold join. cbn [flat_map app].
    now rewrite <- app_assoc. }
  assert (Eab : join g bs ++ b = join g (bs ++ g' :: bs')).
  { rewrite Hb, E. unfold join. rewrite flat_map_app. cbn [flat_map].
    now rewrite <- !app_assoc. }
  rewrite Eab, Eb.
  rewrite !run_passes_join; try assumption; try apply passes_good;
    try reflexivity.
  - rewrite map_app. unfold join. rewrite flat_map_app. cbn [map app].
    now rewrite <- !app_assoc.
  - now constructor.
  - apply Forall_app. split; [assumption|now constructor].
Qed.

Lemma rewriting_splits_at_call_witness :
  Py.startswith (call dq (txt "ok") ++ txt ")") (txt "L(") = true
  /\ update_content (txt "Text(" ++ call dq (txt "ok") ++ txt ")")
     = Some (txt "Text(" ++ call dq (txt "OK") ++ txt ")").
Proof.
  split; [reflexivity|].
  destruct (rewriting_splits_at_call (txt "Text(")
              (call dq (txt "ok") ++ txt ")") eq_refl)
    as (a' & b' & Ea & Eb & E).
  assert (Ha : update_content (txt "Text(") = Some (txt "Text("))
    by (vm_compute; reflexivity).
  assert (Hb : update_content (call dq (txt "ok") ++ txt ")")
               = Some (call dq (txt "OK") ++ txt ")"))
    by (vm_compute; reflexivity).
  assert (Ea' : a' = txt "Text(") by congruence.
  assert (Eb' : b' = call dq (txt "OK") ++ txt ")") by congruence.
  rewrite E, Ea', Eb'. reflexivity.
Defined.

(** ** One iteration of the loop, for any pair *)

Lemma not_special_not_bs (c : ascii) :
  Re.is_special c = false -> Ascii.eqb c bs = false.
Proof.
  unfold Re.is_special. rewrite existsb_app. intros H.
  apply orb_false_iff in H as [_ H]. cbn [existsb] in H.
  now rewrite orb_false_r in H.
Qed.

Lemma lit_plain (c : ascii) (rest : text) :
  Re.is_special c = false ->
  Re.literal_of_pattern (c :: rest)
  = option_map (cons c) (Re.literal_of_pattern rest).
Proof.
  intros H. cbn [Re.literal_of_pattern].
  now rewrite (not_special_not_bs c H), H.
Qed.

Lemma lit_esc (e : ascii) (rest : text) :
  Re.is_alnum e = false ->
  Re.literal_of_pattern (bs :: e :: rest)
  = option_map (cons e) (Re.literal_of_pattern rest).
Proof.
  intros H. cbn [Re.literal_of_pattern].
  now rewrite Ascii.eqb_refl, H.
Qed.

Lemma literal_of_pattern_ordinary (k rest : text) :
  ordinary k = true ->
  Re.literal_of_pattern (k ++ rest)
  = option_map (app k) (Re.literal_of_pattern rest).
Proof.
  unfold ordinary. induction k as [|a k IH]; intros H.
  - cbn [app]. now destruct (Re.literal_of_pattern rest).
  - cbn [forallb] in H. apply andb_true_iff in H as [Ha Hk].
    apply negb_true_iff in Ha. cbn [app].
    rewrite (lit_plain a _ Ha), (IH Hk).
    now destruct (Re.literal_of_pattern rest).
Qed.

Lemma pattern_literal (Q : ascii) (k : text) :
  Re.is_special Q = false -> ordinary k = true ->
  Re.literal_of_pattern
    ("L"%char :: bs :: "("%char :: Q :: k ++ Q :: bs :: [")"%char])
  = Some (call Q k).
Proof.
  intros HQ Hk.
  rewrite lit_plain by reflexivity. rewrite lit_esc by reflexivity.
  rewrite (lit_plain Q _ HQ), (literal_of_pattern_ordinary k _ Hk).
  rewrite (lit_plain Q _ HQ). rewrite lit_esc by reflexivity.
  reflexivity.
Qed.

Lemma tpl_plain (c : ascii) (rest : text) :
  Ascii.eqb c bs = false ->
  Re.expand_template (c :: rest)
  = option_map (cons c) (Re.expand_template rest).
Proof. intros H. cbn [Re.expand_template]. now rewrite H. Qed.

Lemma tpl_esc (e : ascii) (rest : text) :
  Ascii.eqb e bs = false -> Re.is_alnum e = false ->
  Re.expand_template (bs :: e :: rest)
  = option_map (fun t => bs :: e :: t) (Re.expand_template rest).
Proof.
  intros H1 H2. cbn [Re.expand_template].
  now rewrite Ascii.eqb_refl, H1, H2.
Qed.

Lemma expand_escape (v rest : text) :
  ~ In bs v ->
  Re.expand_template (escape v ++ rest)
  = option_map (app (escape v)) (Re.expand_template rest).
Proof.
  induction v as [|c v IH]; intros H.
  - cbn [escape Py.replace_char flat_map app].
    now destruct (Re.expand_template rest).
  - assert (Hc : Ascii.eqb c bs = false).
    { destruct (Ascii.eqb c bs) eqn:E; [|reflexivity].
      apply Ascii.eqb_eq in E. exfalso. apply H. now left. }
    assert (Hv : ~ In bs v) by (intros F; apply H; now right).
    rewrite escape_cons, <- app_assoc.
    destruct (Ascii.eqb c dq); [|destruct (Ascii.eqb c sq)]; cbn [app].
    + rewrite tpl_esc by reflexivity. rewrite (IH Hv).
      now destruct (Re.expand_template rest).
    + rewrite tpl_esc by reflexivity. rewrite (IH Hv).
      now destruct (Re.expand_template rest).
    + rewrite (tpl_plain c _ Hc), (IH Hv).
      now destruct (Re.expand_template rest).
Qed.

Lemma replacement_literal (v : text) :
  ~ In bs v ->
  Re.expand_template (replacement (escape v)) = Some (call dq (escape v)).
Proof.
  intros H. unfold replacement, txt.
  cbn [String.list_ascii_of_string app].
  rewrite !tpl_plain by reflexivity. rewrite (expand_escape v _ H).
  rewrite !tpl_plain by reflexivity. reflexivity.
Qed.

(** X4: one iteration of the loop, for any pair whose key has no character
    special in a regular expression and whose value has no backslash, raises
    nothing and is two literal replacements: every [L("key")], then every
    [L('key')], by [L("escaped value")]. *)
Theorem pair_is_literal (k v : string) (c : text) :
  ordinary (txt k) = true -> ~ In bs (txt v) ->
  rewrite_pair c (k, v)
  = Some (Re.sub_literal (call sq (txt k)) (call dq (escape (txt v)))
            (Re.sub_literal (call dq (txt k)) (call dq (escape (txt v))) c)).
Proof.
  intros Hk Hv. unfold rewrite_pair, Re.sub. cbv zeta. cbn [fst snd].
  assert (P1 : Re.literal_of_pattern (pattern1 (txt k)) = Some (call dq (txt k)))
    by exact (pattern_literal dq (txt k) eq_refl Hk).
  assert (P2 : Re.literal_of_pattern (pattern2 (txt k)) = Some (call sq (txt k)))
    by exact (pattern_literal sq (txt k) eq_refl Hk).
  rewrite P1, P2, (replacement_literal (txt v) Hv). reflexivity.
Qed.

Lemma pair_is_literal_witness :
  ordinary (txt "greeting") = true
  /\ ~ In bs (txt "It's here")
  /\ rewrite_pair (call sq (txt "greeting")) ("greeting", "It's here")
     = Some (call dq (txt "It\'s here")).
Proof.
  assert (Hv : ~ In bs (txt "It's here")) by (cbv; intuition discriminate).
  split; [reflexivity|]. split; [exact Hv|].
  rewrite (pair_is_literal "greeting" "It's here"
             (call sq (txt "greeting")) eq_refl Hv).
  vm_compute. reflexivity.
Defined.

(** * Further properties of [update_file] and of the run *)

Lemma reads_app (a b : list event) : reads (a ++ b) = reads a ++ reads b.
Proof. apply flat_map_app. Qed.

Lemma printed_app (a b : list event) :
  printed (a ++ b) = printed a ++ printed b.
Proof. apply flat_map_app. Qed.

Lemma writes_app (a b : list event) : writes (a ++ b) = writes a ++ writes b.
Proof. apply flat_map_app. Qed.

Lemma process_reads (p : text) (m : filesystem) :
  reads (snd (process p m)) = [p].
Proof.
  unfold process.
  destruct (f_read (m p)) as [c|e]; [|reflexivity].
  destruct (update_content c) as [c'|]; [|reflexivity].
  destruct (negb (text_eqb c' c)); [|reflexivity].
  destruct (f_write (m p)) as [[e|e kept und later]|]; reflexivity.
Qed.

Lemma process_printed_le (p : text) (m : filesystem) :
  length (printed (snd (process p m))) <= 1.
Proof.
  unfold process.
  destruct (f_read (m p)) as [c|e]; [|cbn; lia].
  destruct (update_content c) as [c'|]; [|cbn; lia].
  destruct (negb (text_eqb c' c)); [|cbn; lia].
  destruct (f_write (m p)) as [[e|e kept und later]|]; cbn; lia.
Qed.

Lemma process_writes_read (p : text) (m : filesystem) :
  In p (writes (snd (process p m))) -> exists c, f_read (m p) = inl c.
Proof.
  unfold process.
  destruct (f_read (m p)) as [c|e]; [intros _; now exists c|].
  cbn. intros [].
Qed.

(** X5: whatever happens to the file, [update_file] opens it for reading
    exactly once, opens no other path, prints at most one line, tries to
    write only a file it could read, keeps the events that came before, and
    leaves every other file as it was. *)
Theorem update_file_frame (filepath : text) (st : state) :
  exists ev,
    trace (update_file filepath st) = trace st ++ ev
    /\ reads ev = [filepath]
    /\ (forall e q, In e ev -> event_path e = Some q -> q = filepath)
    /\ length (printed ev) <= 1
    /\ (In filepath (writes ev) -> exists c, f_read (fs st filepath) = inl c)
    /\ (forall q, q <> filepath -> fs (update_file filepath st) q = fs st q).
Proof.
  exists (snd (process filepath (fs st))).
  rewrite update_file_process. cbn [fs trace].
  split; [reflexivity|]. split; [apply process_reads|].
  split; [intros e q; apply process_events_path|].
  split; [apply process_printed_le|].
  split; [apply process_writes_read|].
  intros q Hq. rewrite process_fs.
  destruct (text_eqb q filepath) eqn:E; [|reflexivity].
  apply text_eqb_eq in E. contradiction.
Qed.

Lemma process_all_reads (ps : list text) (m : filesystem) :
  reads (snd (process_all ps m)) = ps.
Proof.
  revert m; induction ps as [|p ps IH]; intros m; [reflexivity|].
  cbn [process_all snd]. now rewrite reads_app, process_reads, IH.
Qed.

(** X6: a run reads every [.swift] file of the walk exactly once, in the
    order of the walk, and reads nothing else: the paths opened for reading
    are the joined paths of the [.swift] names, triple after triple. *)
Theorem reads_in_walk_order
        (w : list (text * list text * list text)) (st : state) :
  reads (trace (run_walk w st))
  = reads (trace st)
    ++ flat_map (fun entry =>
                   map (Py.path_join (fst (fst entry)))
                       (filter (fun file => Py.endswith file (txt ".swift"))
                               (snd entry))) w.
Proof.
  rewrite run_walk_paths, run_paths_process. cbn [trace].
  now rewrite reads_app, process_all_reads.
Qed.

Lemma process_change (p : text) (m : filesystem) (q : text) :
  fst (process p m) q = m q
  \/ (q = p /\ In p (writes (snd (process p m)))
      /\ (In (updated_line p) (printed (snd (process p m)))
          \/ exists e, In (error_line p e) (printed (snd (process p m))))).
Proof.
  unfold process.
  destruct (f_read (m p)) as [c|e]; [|now left].
  destruct (update_content c) as [c'|]; [|now left].
  destruct (negb (text_eqb c' c)); [|now left].
  destruct (f_write (m p)) as [[e|e kept und later]|]; [now left| |];
    cbn [fst snd]; unfold fs_set;
    (destruct (text_eqb q p) eqn:E; [|now left]);
    apply text_eqb_eq in E; right; (split; [assumption|]);
    (split; [cbn; now left|]).
  - right. exists e. cbn. now left.
  - left. cbn. now left.
Qed.

Lemma process_all_change (ps : list text) (m : filesystem) (q : text) :
  fst (process_all ps m) q <> m q ->
  In q (writes (snd (process_all ps m)))
  /\ (In (updated_line q) (printed (snd (process_all ps m)))
      \/ exists e, In (error_line q e) (printed (snd (process_all ps m)))).
Proof.
  revert m; induction ps as [|p ps IH]; intros m H.
  - now contradiction H.
  - cbn [process_all fst snd] in *. rewrite printed_app, writes_app.
    destruct (process_change p m q) as [E|(-> & H1 & H2)].
    + rewrite <- E in H. destruct (IH _ H) as [I1 I2].
      split; [apply in_or_app; now right|].
      destruct I2 as [I2|[e I2]]; [left|right; exists e];
        apply in_or_app; now right.
    + split; [apply in_or_app; now left|].
      destruct H2 as [H2|[e H2]]; [left|right; exists e];
        apply in_or_app; now left.
Qed.

(** X7: every modification is logged: a file that differs after the run
    from what it was before was opened for writing, and a line with its
    path was printed for it: [Updated: <path>], or
    [Error updating <path>: <message>] when the write broke after the file
    was opened. *)
Theorem changes_are_logged
        (w : list (text * list text * list text)) (m : filesystem) (q : text) :
  fs (run_walk w {| fs := m; trace := [] |}) q <> m q ->
  In q (writes (trace (run_walk w {| fs := m; trace := [] |})))
  /\ (In (txt "Updated: " ++ q)
         (printed (trace (run_walk w {| fs := m; trace := [] |})))
      \/ exists e,
          In (txt "Error updating " ++ q ++ txt ": " ++ e)
             (printed (trace (run_walk w {| fs := m; trace := [] |})))).
Proof.
  rewrite run_walk_paths, run_paths_process. cbn [fs trace app].
  apply process_all_change.
Qed.

Lemma changes_are_logged_witness :
  fs (run_walk example_walk {| fs := example_fs_full; trace := [] |})
     (txt "Lumen/A.swift")
  <> example_fs_full (txt "Lumen/A.swift")
  /\ In (txt "Lumen/A.swift")
        (writes (trace (run_walk example_walk
                          {| fs := example_fs_full; trace := [] |}))).
Proof.
  assert (N : fs (run_walk example_walk
                    {| fs := example_fs_full; trace := [] |})
                 (txt "Lumen/A.swift")
              <> example_fs_full (txt "Lumen/A.swift")).
  { intros F. apply (f_equal f_read) in F. vm_compute in F. discriminate. }
  split; [exact N|].
  exact (proj1 (changes_are_logged example_walk example_fs_full
                  (txt "Lumen/A.swift") N)).
Defined.

Lemma error_not_updated (p e q : text) : error_line p e <> updated_line q.
Proof. unfold error_line, updated_line, txt. cbn. discriminate. Qed.

Lemma process_fixed (p : text) (m : filesystem) :
  step_file (m p) = m p ->
  (forall line, In line (printed (snd (process p m))) ->
                exists e, line = error_line p e)
  /\ (forall q, fst (process p m) q = m q).
Proof.
  intros Hfix. split.
  - unfold process. unfold step_file in Hfix.
    destruct (f_read (m p)) as [c|e] eqn:Er.
    + destruct (update_content c) as [c'|].
      * destruct (negb (text_eqb c' c)) eqn:En.
        -- destruct (f_write (m p)) as [[e|e kept und later]|].
           ++ cbn. intros line [<-|[]]. now exists e.
           ++ cbn. intros line [<-|[]]. now exists e.
           ++ exfalso. rewrite <- Hfix in Er. cbn [f_read] in Er.
              injection Er as Er. apply negb_true_iff in En.
              apply text_eqb_neq in En. congruence.
        -- cbn. intros line [].
      * cbn. intros line [<-|[]]. now eexists.
    + cbn. intros line [<-|[]]. now exists e.
  - intros q. rewrite process_fs.
    destruct (text_eqb q p) eqn:E; [|reflexivity].
    apply text_eqb_eq in E. now subst q.
Qed.

Lemma process_all_fixed (ps : list text) (m : filesystem) :
  (forall q, In q ps -> step_file (m q) = m q) ->
  forall line, In line (printed (snd (process_all ps m))) ->
               exists p e, line = error_line p e.
Proof.
  revert m; induction ps as [|p ps IH]; intros m Hfix line; [intros []|].
  cbn [process_all snd]. rewrite printed_app. intros H.
  destruct (process_fixed p m (Hfix p (or_introl eq_refl))) as [H1 H2].
  apply in_app_or in H as [H|H].
  - destruct (H1 line H) as [e He]. now exists p, e.
  - apply (IH (fst (process p m))); [|assumption].
    intros q Hq. rewrite H2. apply Hfix. now right.
Qed.

(** X8: a second run over the same walk updates nothing: it reads the same
    files again and every line it prints is an error line (of a file that
    still cannot be read or written), never an [Updated] line. *)
Theorem second_run_updates_nothing
        (w : list (text * list text * list text)) (st : state) :
  exists ev,
    trace (run_walk w (run_walk w st)) = trace (run_walk w st) ++ ev
    /\ reads ev = targets w
    /\ (forall line, In line (printed ev) ->
                     exists p e, line = error_line p e)
    /\ (forall p, ~ In (updated_line p) (printed ev)).
Proof.
  set (m1 := fs (run_walk w st)).
  exists (snd (process_all (targets w) m1)).
  assert (Hfix : forall q, In q (targets w) -> step_file (m1 q) = m1 q).
  { intros q Hq. unfold m1. rewrite run_walk_fs.
    apply mem_In in Hq. rewrite Hq. apply step_file_idem. }
  split; [|split; [|split]].
  - rewrite (run_walk_paths w (run_walk w st)), run_paths_process.
    reflexivity.
  - apply process_all_reads.
  - now apply process_all_fixed.
  - intros p F. apply (process_all_fixed _ _ Hfix) in F as (p' & e & F).
    symmetry in F. now apply error_not_updated in F.
Qed.

(** ** The run stays inside the directory *)

Lemma join_prefix (a d : text) :
  plain_name d = true -> Py.startswith (Py.path_join a d) a = true.
Proof.
  unfold plain_name, Py.path_join. intros H. apply negb_true_iff in H.
  rewrite H. destruct a as [|x a]; [reflexivity|].
  destruct (Py.endswith (x :: a) (txt "/")); apply startswith_self_app.
Qed.

Lemma startswith_trans (a b c : text) :
  Py.startswith b a = true -> Py.startswith c b = true ->
  Py.startswith c a = true.
Proof.
  intros H1 H2. apply startswith_iff in H1 as [x ->].
  apply startswith_iff in H2 as [y ->]. rewrite <- app_assoc.
  apply startswith_self_app.
Qed.

Lemma os_walk_under :
  forall (t : tree) (top : text),
    names_ok t = true ->
    forall entry, In entry (os_walk top t) ->
                  Py.startswith (fst (fst entry)) top = true
                  /\ forallb plain_name (snd entry) = true.
Proof.
  fix IH 1. intros [files subdirs] top Hok entry Hin.
  cbn [names_ok] in Hok. apply andb_true_iff in Hok as [Hf Hs].
  cbn [os_walk] in Hin. destruct Hin as [<-|Hin].
  - cbn [fst snd]. split; [|assumption].
    rewrite <- (app_nil_r top) at 1. apply startswith_self_app.
  - clear Hf. induction subdirs as [|d subdirs IHs]; [destruct Hin|].
    cbn [forallb] in Hs. apply andb_true_iff in Hs as [Hd Hs].
    apply andb_true_iff in Hd as [Hn Hd].
    cbn [flat_map] in Hin. apply in_app_or in Hin as [Hin|Hin].
    + destruct (IH (snd d) _ Hd entry Hin) as [H1 H2]. split; [|assumption].
      apply (startswith_trans top (Py.path_join top (fst d)));
        [now apply join_prefix|assumption].
    + now apply IHs.
Qed.

Lemma targets_under (t : tree) (top p : text) :
  names_ok t = true -> In p (targets (os_walk top t)) ->
  Py.startswith p top = true.
Proof.
  intros Hok Hin. unfold targets in Hin.
  apply in_flat_map in Hin as (entry & He & Hp).
  destruct (os_walk_under t top Hok entry He) as [H1 H2].
  apply in_map_iff in Hp as (f & <- & Hf). apply filter_In in Hf as [Hf _].
  rewrite forallb_forall in H2.
  apply (startswith_trans top (fst (fst entry))); [assumption|].
  apply join_prefix, H2, Hf.
Qed.

Lemma lumen_join (d : text) :
  plain_name d = true -> Py.path_join lumen_dir d = txt "Lumen/" ++ d.
Proof.
  unfold plain_name, Py.path_join. intros H. apply negb_true_iff in H.
  now rewrite H.
Qed.

Lemma targets_in_lumen (t : tree) (p : text) :
  names_ok t = true -> In p (targets (os_walk lumen_dir t)) ->
  Py.startswith p (txt "Lumen/") = true.
Proof.
  destruct t as [files subdirs]. intros Hok Hin.
  cbn [names_ok] in Hok. apply andb_true_iff in Hok as [Hf Hs].
  cbn [os_walk] in Hin. unfold targets in Hin. cbn [flat_map fst snd] in Hin.
  apply in_app_or in Hin as [Hin|Hin].
  - apply in_map_iff in Hin as (f & <- & Hin).
    apply filter_In in Hin as [Hin _]. rewrite forallb_forall in Hf.
    rewrite (lumen_join f (Hf f Hin)). apply startswith_self_app.
  - apply in_flat_map in Hin as (entry & He & Hp).
    apply in_flat_map in He as (d & Hd & He).
    rewrite forallb_forall in Hs. specialize (Hs d Hd).
    apply andb_true_iff in Hs as [Hn Hsub].
    assert (T : In p (targets (os_walk (Py.path_join lumen_dir (fst d))
                                       (snd d)))).
    { unfold targets. apply in_flat_map. now exists entry. }
    apply (targets_under _ _ _ Hsub) in T.
    apply (startswith_trans _ (Py.path_join lumen_dir (fst d))); [|assumption].
    rewrite (lumen_join _ Hn). apply startswith_self_app.
Qed.

(** X9: the run stays inside the directory it walks: when the names of the
    tree are plain names (none is an absolute path), every path [main] opens
    starts with [Lumen/], and every file whose path does not is left as it
    was. *)
Theorem run_stays_in_lumen (t : tree) (m : filesystem) :
  names_ok t = true ->
  (forall e p,
      In e (trace (main t {| fs := m; trace := [] |})) ->
      event_path e = Some p -> Py.startswith p (txt "Lumen/") = true)
  /\ (forall p,
         Py.startswith p (txt "Lumen/") = false ->
         fs (main t {| fs := m; trace := [] |}) p = m p).
Proof.
  intros Hok. unfold main. rewrite run_walk_paths, run_paths_process.
  cbn [fs trace app]. split.
  - intros e p He Hp.
    apply (process_all_events_path _ _ _ p) in He; [|assumption].
    now apply (targets_in_lumen t).
  - intros p Hp. rewrite process_all_fs.
    destruct (mem p (targets (os_walk lumen_dir t))) eqn:E; [|reflexivity].
    apply mem_In, (targets_in_lumen t p Hok) in E. congruence.
Qed.

Lemma run_stays_in_lumen_witness :
  names_ok example_tree = true
  /\ fs (main example_tree {| fs := example_fs; trace := [] |})
        (txt "Other/A.swift")
     = example_fs (txt "Other/A.swift").
Proof.
  split; [reflexivity|].
  exact (proj2 (run_stays_in_lumen example_tree example_fs eq_refl)
           (txt "Other/A.swift") eq_refl).
Defined.

(** ** Files that fail, and what the log says *)

(** X10: a file that cannot be read, or that cannot be opened for writing,
    is left as it was by the whole run, however often the walk visits
    it. *)
Theorem failing_file_untouched
        (w : list (text * list text * list text)) (st : state) (q e : text) :
  f_read (fs st q) = inr e \/ f_write (fs st q) = Some (OpenRefused e) ->
  fs (run_walk w st) q = fs st q.
Proof.
  intros H. rewrite run_walk_fs.
  destruct (mem q (targets w)); [|reflexivity].
  unfold step_file. destruct H as [H|H].
  - now rewrite H.
  - destruct (f_read (fs st q)) as [c|]; [|reflexivity].
    destruct (update_content c) as [c'|]; [|reflexivity].
    destruct (negb (text_eqb c' c)); [|reflexivity].
    now rewrite H.
Qed.

Lemma failing_file_untouched_witness :
  (f_read (fs example_state (txt "Lumen/Locked.swift"))
   = inr (txt "Permission denied")
   \/ f_write (fs example_state (txt "Lumen/Locked.swift"))
      = Some (OpenRefused (txt "Permission denied")))
  /\ fs (run_walk example_walk_locked example_state) (txt "Lumen/Locked.swift")
     = fs example_state (txt "Lumen/Locked.swift").
Proof.
  split; [left; reflexivity|].
  exact (failing_file_untouched example_walk_locked example_state
           (txt "Lumen/Locked.swift") (txt "Permission denied")
           (or_introl eq_refl)).
Defined.

Lemma updated_line_inj (p q : text) : updated_line p = updated_line q -> p = q.
Proof. unfold updated_line. apply app_inv_head. Qed.

Lemma process_updated (p : text) (m : filesystem) (q : text) :
  In (updated_line q) (printed (snd (process p m))) ->
  q = p
  /\ exists c c',
       f_read (m p) = inl c /\ update_content c = Some c' /\ c' <> c
       /\ step_file (m p) = {| f_read := inl c'; f_write := None |}.
Proof.
  unfold process, step_file.
  destruct (f_read (m p)) as [c|e] eqn:Er.
  - destruct (update_content c) as [c'|] eqn:Eu.
    + destruct (negb (text_eqb c' c)) eqn:En.
      * destruct (f_write (m p)) as [[e|e kept und later]|].
        -- cbn. intros [F|[]]. now apply error_not_updated in F.
        -- cbn. intros [F|[]]. now apply error_not_updated in F.
        -- cbn. intros [F|[]]. apply updated_line_inj in F. subst q.
           split; [reflexivity|]. exists c, c'.
           apply negb_true_iff, text_eqb_neq in En.
           split; [reflexivity|]. split; [exact Eu|].
           split; [exact En|reflexivity].
      * cbn. intros [].
    + cbn. intros [F|[]]. now apply error_not_updated in F.
  - cbn. intros [F|[]]. now apply error_not_updated in F.
Qed.

Lemma process_all_updated (ps : list text) (m : filesystem) (q : text) :
  In (updated_line q) (printed (snd (process_all ps m))) ->
  In q ps
  /\ exists c c',
       f_read (m q) = inl c /\ update_content c = Some c' /\ c' <> c
       /\ step_file (m q) = {| f_read := inl c'; f_write := None |}.
Proof.
  revert m; induction ps as [|p ps IH]; intros m; [intros []|].
  cbn [process_all snd]. rewrite printed_app. intros H.
  apply in_app_or in H as [H|H].
  - apply process_updated in H as [-> H]. split; [now left|assumption].
  - apply IH in H as [Hin (c & c' & Er & Eu & Ne & Es)].
    split; [now right|].
    rewrite process_fs in Er, Es.
    destruct (text_eqb q p) eqn:E.
    + apply text_eqb_eq in E. subst q. exfalso.
      rewrite step_file_idem in Es. rewrite Es in Er. cbn [f_read] in Er.
      congruence.
    + exists c, c'. split; [exact Er|]. split; [exact Eu|].
      split; [exact Ne|exact Es].
Qed.

(** X11: the log tells the truth: when a run prints [Updated: <path>], the
    file at that path differs after the run from what it was before, and it
    now holds a content the loop leaves unchanged. *)
Theorem updated_line_means_modified
        (w : list (text * list text * list text)) (m : filesystem) (q : text) :
  In (txt "Updated: " ++ q)
     (printed (trace (run_walk w {| fs := m; trace := [] |}))) ->
  fs (run_walk w {| fs := m; trace := [] |}) q <> m q
  /\ exists c',
       f_read (fs (run_walk w {| fs := m; trace := [] |}) q) = inl c'
       /\ update_content c' = Some c'.
Proof.
  rewrite run_walk_paths, run_paths_process. cbn [fs trace app].
  intros H.
  apply (process_all_updated (targets w) m q) in H
    as [Hin (c & c' & Er & Eu & Ne & Es)].
  rewrite process_all_fs. apply mem_In in Hin. rewrite Hin, Es.
  split.
  - intros F. rewrite <- F in Er. cbn [f_read] in Er. congruence.
  - exists c'. split; [reflexivity|]. now apply (update_content_idem c).
Qed.

Lemma updated_line_means_modified_witness :
  In (txt "Updated: " ++ txt "Lumen/A.swift")
     (printed (trace (run_walk example_walk
                        {| fs := example_fs; trace := [] |})))
  /\ fs (run_walk example_walk {| fs := example_fs; trace := [] |})
        (txt "Lumen/A.swift")
     <> example_fs (txt "Lumen/A.swift").
Proof.
  assert (H : In (txt "Updated: " ++ txt "Lumen/A.swift")
                 (printed (trace (run_walk example_walk
                                    {| fs := example_fs; trace := [] |})))).
  { vm_compute. left. reflexivity. }
  split; [exact H|].
  exact (proj1 (updated_line_means_modified example_walk example_fs
                  (txt "Lumen/A.swift") H)).
Defined.
